(** * tide-whisperer: the per-request data-retrieval pipeline

    A shallow embedding of [tide-whisperer.go] (the revision that carries the
    restricted-token authenticator, the filter enrichment lookups and the
    streaming serializer), followed by the properties of the pipeline.

    External collaborators (shoreline, gatekeeper, the auth client, the
    storage client, the clock, the uuid generator, encoding/json) are the
    fields of a [World]; the handler threads an explicit [State] holding the
    package-level variables, the server log, and the trace of external
    calls. *)

From Stdlib Require Import ZArith Lia.
From stdpp Require Import base strings gmap list pretty sorting.

#[local] Set Warnings "-clear-no-such-hyp".

Local Open Scope Z_scope.
Local Open Scope string_scope.
Local Open Scope list_scope.

(** ** Go values *)

(** A Go [error] is observed only through its [Error()] text. *)
Definition error := string.

Inductive result (A : Type) : Type :=
| Ok (a : A)
| Err (e : error).
Arguments Ok {A} a.
Arguments Err {A} e.

(** [url.Values] and [http.Header]: a map from names to the values given. *)
Abbreviation Values := (gmap string (list string)).

(** [Values.Get] / [Header.Get]: the first value of the key, or the empty
    string.  Header names are taken in their canonical form. *)
Definition Get (v : Values) (key : string) : string :=
  match v !! key with
  | Some (x :: _) => x
  | _ => ""
  end.

Record Request := {
  Header : Values;
  URL_Query : Values
}.

Definition StatusOK : Z := 200.
Definition StatusForbidden : Z := 403.
Definition StatusInternalServerError : Z := 500.

(** ** http.ResponseWriter *)

Record ResponseWriter := {
  headers : list (string * string);
  status : option Z;
  body : string
}.

Definition newResponse : ResponseWriter :=
  {| headers := []; status := None; body := "" |}.

Definition Header_Add (k v : string) (r : ResponseWriter) : ResponseWriter :=
  {| headers := headers r ++ [(k, v)]; status := status r; body := body r |}.

(** The first call fixes the status; later calls are ignored. *)
Definition WriteHeader (code : Z) (r : ResponseWriter) : ResponseWriter :=
  match status r with
  | Some _ => r
  | None => {| headers := headers r; status := Some code; body := body r |}
  end.

(** [Write] sends [StatusOK] first when no status was written yet. *)
Definition Write (bytes : string) (r : ResponseWriter) : ResponseWriter :=
  let r' := WriteHeader StatusOK r in
  {| headers := headers r'; status := status r'; body := body r' ++ bytes |}.

(** ** The error envelope and its catalog *)

Record detailedError := {
  Status : Z;
  Id : string;
  Code : string;
  Message : string;
  InternalMessage : string
}.

Definition set_Id (id : string) (d : detailedError) : detailedError :=
  {| Status := Status d; Id := id; Code := Code d; Message := Message d;
     InternalMessage := InternalMessage d |}.

(** Value receiver: the argument is a copy, the result another value. *)
Definition setInternalMessage (d : detailedError) (internal : error) : detailedError :=
  {| Status := Status d; Id := Id d; Code := Code d; Message := Message d;
     InternalMessage := internal |}.

(** The package-level [var] block: mutable globals in Go. *)
Record Globals := {
  error_status_check : detailedError;
  error_no_view_permisson : detailedError;
  error_no_permissons : detailedError;
  error_running_query : detailedError;
  error_loading_events : detailedError;
  error_invalid_parameters : detailedError
}.

Definition catalogEntry (st : Z) (code msg : string) : detailedError :=
  {| Status := st; Id := ""; Code := code; Message := msg; InternalMessage := "" |}.

Definition package_vars : Globals := {|
  error_status_check :=
    catalogEntry StatusInternalServerError "data_status_check"
      "checking of the status endpoint showed an error";
  error_no_view_permisson :=
    catalogEntry StatusForbidden "data_cant_view"
      "user is not authorized to view data";
  error_no_permissons :=
    catalogEntry StatusInternalServerError "data_perms_error"
      "error finding permissons for user";
  error_running_query :=
    catalogEntry StatusInternalServerError "data_store_error"
      "internal server error";
  error_loading_events :=
    catalogEntry StatusInternalServerError "data_marshal_error"
      "internal server error";
  error_invalid_parameters :=
    catalogEntry StatusInternalServerError "invalid_parameters"
      "one or more parameters are invalid"
|}.

Definition DATA_API_PREFIX : string := "api/data".
Definition MedtronicLoopBoundaryDate : string := "2017-09-01".

(** ** Types of the collaborators *)

(** [shoreline.TokenData]. *)
Record TokenData := {
  UserID : string;
  IsServer : bool
}.

(** [auth.RestrictedToken]: the handler reads its [UserID] only; what else it
    carries (paths, expiry) is an opaque payload for [Authenticates]. *)
Record RestrictedToken := {
  RestrictedToken_UserID : string;
  RestrictedToken_scope : string
}.

(** [clients.Permissions]: a permission is a possibly-nil object. *)
Definition Permission := option string.
Abbreviation Permissions := (gmap string Permission).

(** [perms[k] == nil]: the key is missing or bound to nil. *)
Definition perm_is_nil (perms : Permissions) (k : string) : bool :=
  match perms !! k with
  | Some (Some _) => false
  | _ => true
  end.

(** Modelled from the spec: [store.Params], the Filter of the data model;
    package [store] is not among the sources. *)
Record Params := {
  UserId : string;
  Types : list string;
  SubTypes : list string;
  StartDate : option string;
  EndDate : option string;
  Carelink : bool;
  Dexcom : bool;
  DexcomDataSource : option string;
  Medtronic : bool;
  MedtronicDate : string;
  MedtronicUploadIds : list string
}.

Definition set_Dates (sd ed : option string) (p : Params) : Params :=
  {| UserId := UserId p; Types := Types p; SubTypes := SubTypes p;
     StartDate := sd; EndDate := ed;
     Carelink := Carelink p; Dexcom := Dexcom p;
     DexcomDataSource := DexcomDataSource p; Medtronic := Medtronic p;
     MedtronicDate := MedtronicDate p;
     MedtronicUploadIds := MedtronicUploadIds p |}.

Definition set_Carelink (b : bool) (p : Params) : Params :=
  {| UserId := UserId p; Types := Types p; SubTypes := SubTypes p;
     StartDate := StartDate p; EndDate := EndDate p;
     Carelink := b; Dexcom := Dexcom p;
     DexcomDataSource := DexcomDataSource p; Medtronic := Medtronic p;
     MedtronicDate := MedtronicDate p;
     MedtronicUploadIds := MedtronicUploadIds p |}.

Definition set_DexcomDataSource (d : option string) (p : Params) : Params :=
  {| UserId := UserId p; Types := Types p; SubTypes := SubTypes p;
     StartDate := StartDate p; EndDate := EndDate p;
     Carelink := Carelink p; Dexcom := Dexcom p;
     DexcomDataSource := d; Medtronic := Medtronic p;
     MedtronicDate := MedtronicDate p;
     MedtronicUploadIds := MedtronicUploadIds p |}.

Definition set_Medtronic (b : bool) (p : Params) : Params :=
  {| UserId := UserId p; Types := Types p; SubTypes := SubTypes p;
     StartDate := StartDate p; EndDate := EndDate p;
     Carelink := Carelink p; Dexcom := Dexcom p;
     DexcomDataSource := DexcomDataSource p; Medtronic := b;
     MedtronicDate := MedtronicDate p;
     MedtronicUploadIds := MedtronicUploadIds p |}.

Definition set_MedtronicLoop (date : string) (ids : list string) (p : Params) : Params :=
  {| UserId := UserId p; Types := Types p; SubTypes := SubTypes p;
     StartDate := StartDate p; EndDate := EndDate p;
     Carelink := Carelink p; Dexcom := Dexcom p;
     DexcomDataSource := DexcomDataSource p; Medtronic := Medtronic p;
     MedtronicDate := date;
     MedtronicUploadIds := ids |}.

(** ** Log lines and external calls *)

(** One constructor per [log.Println] / [log.Printf] site, carrying the
    values that are formatted into the line.  Durations are nanoseconds. *)
Inductive LogEntry :=
| LogParseError (e : error)
| LogGroupLookupError (e : error)
| LogPerms (perms : Permissions)
| LogFailure (id code : string) (elapsed : Z) (message internal : string)
| LogMedtronicDirectError (e : error)
| LogDexcomError (e : error)
| LogMedtronicLoopError (e : error)
| LogUploadIdsError (e : error)
| LogProcessingStarted (elapsed : Z)
| LogMarshalFailed (e : error)
| LogProcessingFinished (elapsed : Z) (writeCount : nat).

(** The calls a request makes on its collaborators, in the order made. *)
Inductive Call :=
| CPing
| CGetParams
| CCheckToken (token : string)
| CGetRestrictedToken (value : string)
| CAuthenticates (rt : RestrictedToken)
| CUserInGroup (user group : string)
| CHasMedtronicDirectData (user : string)
| CGetDexcomDataSource (user : string)
| CHasMedtronicLoopDataAfter (user date : string)
| CGetLoopableMedtronicDirectUploadIdsAfter (user date : string)
| CGetDeviceData (p : Params)
| CNext
| CClose.

(** ** Server state and the state monad *)

#[projections(primitive)]
Record State := {
  globals : Globals;
  logs : list LogEntry;
  calls : list Call;
  ticks : nat;
  uuids : nat
}.

Definition initial_state : State :=
  {| globals := package_vars; logs := []; calls := []; ticks := 0%nat; uuids := 0%nat |}.

Definition M (A : Type) : Type := State -> A * State.

Definition ret {A} (a : A) : M A := fun s => (a, s).

Definition bind {A B} (m : M A) (k : A -> M B) : M B :=
  fun s => let (a, s') := m s in k a s'.

Declare Scope go_scope.
Delimit Scope go_scope with go.
Notation "x <- m ;; k" := (bind m (fun x => k))
  (at level 100, m at next level, right associativity) : go_scope.
Notation "m ;;; k" := (bind m (fun _ => k))
  (at level 100, right associativity) : go_scope.
Local Open Scope go_scope.

Definition log_Println (e : LogEntry) : M unit :=
  fun s => (tt, {| globals := globals s; logs := logs s ++ [e]; calls := calls s;
                  ticks := ticks s; uuids := uuids s |}).

Definition called (c : Call) : M unit :=
  fun s => (tt, {| globals := globals s; logs := logs s; calls := calls s ++ [c];
                  ticks := ticks s; uuids := uuids s |}).

(** Reading a package-level variable. *)
Definition global {A} (f : Globals -> A) : M A :=
  fun s => (f (globals s), s).

Inductive NextResult (Value : Type) :=
| Produced (doc : gmap string Value)
| Panics.
Arguments Produced {Value} doc.
Arguments Panics {Value}.

(** [store.StorageIterator]: what the successive [Next] calls will give, and
    how many times [Close] was called. *)
Record StorageIterator (Value : Type) := {
  pending : list (NextResult Value);
  closed : nat
}.
Arguments pending {Value} _.
Arguments closed {Value} _.

(** ** The collaborators *)

Record World (Value : Type) := {
  (* time.Now, by reading; uuid.NewV4().String(), by draw *)
  Now : nat -> Z;
  NewV4 : nat -> string;
  (* encoding/json: a string literal, and a decoded document *)
  json_string : string -> string;
  json_Marshal_results : gmap string Value -> result string;
  (* package store, parameter parsing *)
  parseTimestamp : string -> option string;
  parseFilter : Values -> result Params;
  (* shoreline, auth, gatekeeper *)
  CheckToken : string -> option TokenData;
  GetRestrictedToken : string -> option RestrictedToken * option error;
  Authenticates : RestrictedToken -> Request -> bool;
  UserInGroup : string -> string -> result Permissions;
  (* store.Storage *)
  Ping : option error;
  HasMedtronicDirectData : string -> result bool;
  GetDexcomDataSource : string -> result (option string);
  HasMedtronicLoopDataAfter : string -> string -> result bool;
  GetLoopableMedtronicDirectUploadIdsAfter : string -> string -> result (list string);
  GetDeviceData : Params -> list (NextResult Value)
}.
Arguments Now {Value} _ _.
Arguments NewV4 {Value} _ _.
Arguments json_string {Value} _ _.
Arguments json_Marshal_results {Value} _ _.
Arguments parseTimestamp {Value} _ _.
Arguments parseFilter {Value} _ _.
Arguments CheckToken {Value} _ _.
Arguments GetRestrictedToken {Value} _ _.
Arguments Authenticates {Value} _ _ _.
Arguments UserInGroup {Value} _ _ _.
Arguments Ping {Value} _.
Arguments HasMedtronicDirectData {Value} _ _.
Arguments GetDexcomDataSource {Value} _ _.
Arguments HasMedtronicLoopDataAfter {Value} _ _ _.
Arguments GetLoopableMedtronicDirectUploadIdsAfter {Value} _ _ _.
Arguments GetDeviceData {Value} _ _.

(** An early [return] out of a request handler: a block of the handler
    either falls through with a value or has written the response. *)
Inductive Flow (A : Type) :=
| Continue (a : A)
| Return (res : ResponseWriter).
Arguments Continue {A} a.
Arguments Return {A} res.

Definition H (A : Type) : Type := M (Flow A).

Definition bindH {A B} (m : H A) (k : A -> H B) : H B :=
  fun s =>
    let (f, s') := m s in
    match f with
    | Continue a => k a s'
    | Return res => (Return res, s')
    end.

Definition lift {A} (m : M A) : H A := a <- m ;; ret (Continue a).

Notation "x <~ m ;; k" := (bindH m (fun x => k))
  (at level 100, m at next level, right associativity) : go_scope.

Inductive Completion := Returns | Panicked.

(** What a run of the data handler leaves behind: the response, the cursor
    it acquired (if it got that far), and whether it returned or panicked. *)
Record Outcome (Value : Type) := {
  response : ResponseWriter;
  cursor : option (StorageIterator Value);
  completion : Completion
}.
Arguments response {Value} _.
Arguments cursor {Value} _.
Arguments completion {Value} _.

Definition dquote : string := String (Ascii.ascii_of_nat 34) EmptyString.
Definition newline : string := String (Ascii.ascii_of_nat 10) EmptyString.

Section Service.

Context {Value : Type}.
Variable w : World Value.

Definition time_Now : M Z :=
  fun s => (Now w (ticks s),
            {| globals := globals s; logs := logs s; calls := calls s;
               ticks := S (ticks s); uuids := uuids s |}).

Definition uuid_NewV4 : M string :=
  fun s => (NewV4 w (uuids s),
            {| globals := globals s; logs := logs s; calls := calls s;
               ticks := ticks s; uuids := S (uuids s) |}).

Definition json_key (k : string) : string := dquote ++ k ++ dquote ++ ":".

(** [json.Marshal] of a [detailedError]: the fields in declaration order
    under their tags; [InternalMessage] is tagged ["-"] and left out. *)
Definition json_Marshal_detailedError (err : detailedError) : string :=
  "{" ++ json_key "status" ++ pretty (Status err) ++
  "," ++ json_key "id" ++ json_string w (Id err) ++
  "," ++ json_key "code" ++ json_string w (Code err) ++
  "," ++ json_key "message" ++ json_string w (Message err) ++ "}".

Definition userCanViewData (authenticatedUserID targetUserID : string) : M bool :=
  if decide (authenticatedUserID = targetUserID) then ret true
  else
    called (CUserInGroup authenticatedUserID targetUserID) ;;;
    match UserInGroup w authenticatedUserID targetUserID with
    | Err err =>
        log_Println (LogGroupLookupError err) ;;;
        ret false
    | Ok perms =>
        log_Println (LogPerms perms) ;;;
        ret (negb (perm_is_nil perms "root" && perm_is_nil perms "view"))
    end.

(** log error detail and write as application/json *)
Definition jsonError (res : ResponseWriter) (err : detailedError) (startedAt : Z)
  : M ResponseWriter :=
  id <- uuid_NewV4 ;;
  let err := set_Id id err in
  now <- time_Now ;;
  log_Println (LogFailure (Id err) (Code err) (now - startedAt)
                 (Message err) (InternalMessage err)) ;;;
  let jsonErr := json_Marshal_detailedError err in
  let res := Header_Add "content-type" "application/json" res in
  let res := WriteHeader (Status err) res in
  ret (Write jsonErr res).

(** Modelled from the spec: the date reading of [store.GetParams], which is
    not among the sources.  A date parameter is optional; when given it is
    read as an ISO-8601 timestamp, and a malformed date is a validation
    failure. *)
Definition readDate (q : Values) (key : string) : result (option string) :=
  match q !! key with
  | None => Ok None
  | Some _ =>
      match parseTimestamp w (Get q key) with
      | Some t => Ok (Some t)
      | None => Err ("cannot parse " ++ key)%string
      end
  end.

(** Modelled from the spec: [store.GetParams], which is not among the
    sources.  The dates are validated as the spec says; what the spec leaves
    open (how the remaining fields of the filter are read, and which other
    validation failures exist) is [parseFilter]. *)
Definition GetParams (q : Values) : result Params :=
  match readDate q "startDate" with
  | Err e => Err e
  | Ok sd =>
      match readDate q "endDate" with
      | Err e => Err e
      | Ok ed =>
          match parseFilter w q with
          | Err e => Err e
          | Ok p => Ok (set_Dates sd ed p)
          end
      end
  end.

(** *** processResults *)

(** The [for iterator.Next(&results)] loop, by recursion on what the cursor
    still holds; [results] is overwritten by each [Next]. *)
Fixpoint processResults_loop (response : ResponseWriter)
    (items : list (NextResult Value)) (writeCount : nat)
  : M (Completion * ResponseWriter * list (NextResult Value) * nat) :=
  match items with
  | [] =>
      called CNext ;;;
      ret (Returns, response, [], writeCount)
  | Panics :: rest =>
      called CNext ;;;
      ret (Panicked, response, rest, writeCount)
  | Produced results :: rest =>
      called CNext ;;;
      if (0 <? size results)%nat then
        match json_Marshal_results w results with
        | Err err =>
            log_Println (LogMarshalFailed err) ;;;
            processResults_loop response rest writeCount
        | Ok bytes =>
            let response :=
              if (0 <? writeCount)%nat then Write "," response else response in
            let response := Write newline response in
            let response := Write bytes response in
            processResults_loop response rest (S writeCount)
        end
      else processResults_loop response rest writeCount
  end.

Definition processResults (response : ResponseWriter)
    (iterator : StorageIterator Value) (startTime : Z)
  : M (Completion * ResponseWriter * StorageIterator Value) :=
  now <- time_Now ;;
  log_Println (LogProcessingStarted (now - startTime)) ;;;
  let response := Header_Add "Content-Type" "application/json" response in
  let response := Write "[" response in
  r <- processResults_loop response (pending iterator) 0%nat ;;
  let '(c, response, rest, writeCount) := r in
  let iterator := {| pending := rest; closed := closed iterator |} in
  match c with
  | Panicked => ret (Panicked, response, iterator)
  | Returns =>
      let response :=
        if (0 <? writeCount)%nat then Write newline response else response in
      let response := Write "]" response in
      now <- time_Now ;;
      log_Println (LogProcessingFinished (now - startTime) writeCount) ;;;
      ret (Returns, response, iterator)
  end.

Definition Close (iterator : StorageIterator Value) : M (StorageIterator Value) :=
  called CClose ;;;
  ret {| pending := pending iterator; closed := S (closed iterator) |}.

(** *** GET /status *)

Definition handle_status (res : ResponseWriter) : M ResponseWriter :=
  start <- time_Now ;;
  called CPing ;;;
  match Ping w with
  | Some err =>
      e <- global error_status_check ;;
      jsonError res (setInternalMessage e err) start
  | None => ret (Write ("OK" ++ newline)%string res)
  end.

(** *** GET /{userID} *)

(** Lines 470-476: the query parameters are read first. *)
Definition parseParams (res : ResponseWriter) (req : Request) (start : Z) : H Params :=
  called CGetParams ;;;
  match GetParams (URL_Query req) with
  | Err err =>
      log_Println (LogParseError err) ;;;
      e <- global error_invalid_parameters ;;
      res <- jsonError res e start ;;
      ret (Return res)
  | Ok queryParams => ret (Continue queryParams)
  end.

(** Lines 478-486: [var td *shoreline.TokenData] and the two ways to set it. *)
Definition authenticate (req : Request) : M (option TokenData) :=
  let sessionToken := Get (Header req) "x-tidepool-session-token" in
  if bool_decide (sessionToken <> "") then
    called (CCheckToken sessionToken) ;;;
    ret (CheckToken w sessionToken)
  else
    match URL_Query req !! "restricted_token" with
    | Some [restrictedTokens0] =>
        called (CGetRestrictedToken restrictedTokens0) ;;;
        match GetRestrictedToken w restrictedTokens0 with
        | (Some restrictedToken, None) =>
            called (CAuthenticates restrictedToken) ;;;
            if Authenticates w restrictedToken req then
              ret (Some {| UserID := RestrictedToken_UserID restrictedToken;
                           IsServer := false |})
            else ret None
        | _ => ret None
        end
    | _ => ret None
    end.

(** Lines 488-491: the gate; [||] evaluates left to right and stops early. *)
Definition authorize (res : ResponseWriter) (start : Z)
    (td : option TokenData) (queryParams : Params) : H unit :=
  canView <-
    match td with
    | None => ret false
    | Some td =>
        if IsServer td || bool_decide (UserID td = UserId queryParams)
        then ret true
        else userCanViewData (UserID td) (UserId queryParams)
    end ;;
  if negb canView then
    e <- global error_no_view_permisson ;;
    res <- jsonError res e start ;;
    ret (Return res)
  else ret (Continue tt).

(** Lines 493-501. *)
Definition enrichCarelink (res : ResponseWriter) (req : Request) (start : Z)
    (queryParams : Params) : H Params :=
  match URL_Query req !! "carelink" with
  | Some _ => ret (Continue queryParams)
  | None =>
      called (CHasMedtronicDirectData (UserId queryParams)) ;;;
      match HasMedtronicDirectData w (UserId queryParams) with
      | Err medtronicErr =>
          log_Println (LogMedtronicDirectError medtronicErr) ;;;
          e <- global error_running_query ;;
          res <- jsonError res e start ;;
          ret (Return res)
      | Ok hasMedtronicDirectData =>
          if negb hasMedtronicDirectData
          then ret (Continue (set_Carelink true queryParams))
          else ret (Continue queryParams)
      end
  end.

(** Lines 502-510. *)
Definition enrichDexcom (res : ResponseWriter) (start : Z)
    (queryParams : Params) : H Params :=
  if negb (Dexcom queryParams) then
    called (CGetDexcomDataSource (UserId queryParams)) ;;;
    match GetDexcomDataSource w (UserId queryParams) with
    | Err dexcomErr =>
        log_Println (LogDexcomError dexcomErr) ;;;
        e <- global error_running_query ;;
        res <- jsonError res e start ;;
        ret (Return res)
    | Ok dexcomDataSource =>
        ret (Continue (set_DexcomDataSource dexcomDataSource queryParams))
    end
  else ret (Continue queryParams).

(** Lines 511-519. *)
Definition enrichMedtronic (res : ResponseWriter) (req : Request) (start : Z)
    (queryParams : Params) : H Params :=
  match URL_Query req !! "medtronic" with
  | Some _ => ret (Continue queryParams)
  | None =>
      called (CHasMedtronicLoopDataAfter (UserId queryParams) MedtronicLoopBoundaryDate) ;;;
      match HasMedtronicLoopDataAfter w (UserId queryParams) MedtronicLoopBoundaryDate with
      | Err medtronicErr =>
          log_Println (LogMedtronicLoopError medtronicErr) ;;;
          e <- global error_running_query ;;
          res <- jsonError res e start ;;
          ret (Return res)
      | Ok hasMedtronicLoopData =>
          if negb hasMedtronicLoopData
          then ret (Continue (set_Medtronic true queryParams))
          else ret (Continue queryParams)
      end
  end.

(** Lines 520-529. *)
Definition enrichUploadIds (res : ResponseWriter) (start : Z)
    (queryParams : Params) : H Params :=
  if negb (Medtronic queryParams) then
    called (CGetLoopableMedtronicDirectUploadIdsAfter
              (UserId queryParams) MedtronicLoopBoundaryDate) ;;;
    match GetLoopableMedtronicDirectUploadIdsAfter w
            (UserId queryParams) MedtronicLoopBoundaryDate with
    | Err medtronicErr =>
        log_Println (LogUploadIdsError medtronicErr) ;;;
        e <- global error_running_query ;;
        res <- jsonError res e start ;;
        ret (Return res)
    | Ok medtronicUploadIds =>
        ret (Continue (set_MedtronicLoop MedtronicLoopBoundaryDate
                         medtronicUploadIds queryParams))
    end
  else ret (Continue queryParams).

(** Lines 531-536.  [defer iter.Close()] runs when the handler returns and
    when [processResults] panics; the panic then goes on unwinding. *)
Definition queryAndStream (res : ResponseWriter) (queryParams : Params)
  : M (Outcome Value) :=
  started <- time_Now ;;
  called (CGetDeviceData queryParams) ;;;
  let iter := {| pending := GetDeviceData w queryParams; closed := 0%nat |} in
  r <- processResults res iter started ;;
  let '(c, res, iter) := r in
  iter <- Close iter ;;
  ret {| response := res; cursor := Some iter; completion := c |}.

(** Lines 493-529: the four lookups, one after the other. *)
Definition enrich (res : ResponseWriter) (req : Request) (start : Z)
    (queryParams : Params) : H Params :=
  queryParams <~ enrichCarelink res req start queryParams ;;
  queryParams <~ enrichDexcom res start queryParams ;;
  queryParams <~ enrichMedtronic res req start queryParams ;;
  enrichUploadIds res start queryParams.

(** Lines 470-529: the blocks that may [return] early, in the order of the
    source. *)
Definition resolveFilter (res : ResponseWriter) (req : Request) (start : Z)
  : H Params :=
  queryParams <~ parseParams res req start ;;
  td <~ lift (authenticate req) ;;
  _ <~ authorize res start td queryParams ;;
  enrich res req start queryParams.

Definition handle_data (res : ResponseWriter) (req : Request) : M (Outcome Value) :=
  start <- time_Now ;;
  f <- resolveFilter res req start ;;
  match f with
  | Return res => ret {| response := res; cursor := None; completion := Returns |}
  | Continue queryParams => queryAndStream res queryParams
  end.

(** *** The router *)

Inductive Incoming :=
| GetStatus
| GetData (req : Request).

(** One request, answered on a response writer of its own. *)
Definition serve (i : Incoming) : M ResponseWriter :=
  match i with
  | GetStatus => handle_status newResponse
  | GetData req =>
      out <- handle_data newResponse req ;;
      ret (response out)
  end.

(** The requests of a run of the server, taken one after the other on the
    shared state. *)
Fixpoint serve_all (incoming : list Incoming) : M (list ResponseWriter) :=
  match incoming with
  | [] => ret []
  | i :: rest =>
      r <- serve i ;;
      rs <- serve_all rest ;;
      ret (r :: rs)
  end.

End Service.

(** ** Vocabulary of the statements *)

(** The pipeline stage a call belongs to. *)
Definition stage (c : Call) : nat :=
  match c with
  | CPing => 0
  | CGetParams => 0
  | CCheckToken _ | CGetRestrictedToken _ | CAuthenticates _ => 1
  | CUserInGroup _ _ => 2
  | CHasMedtronicDirectData _ | CGetDexcomDataSource _
  | CHasMedtronicLoopDataAfter _ _
  | CGetLoopableMedtronicDirectUploadIdsAfter _ _ => 3
  | CGetDeviceData _ => 4
  | CNext => 5
  | CClose => 6
  end.

(** Calls made in the order of the stages they belong to. *)
Definition stage_order (c1 c2 : Call) : Prop := (stage c1 <= stage c2)%nat.

Definition in_pipeline_order (cs : list Call) : Prop :=
  StronglySorted stage_order cs.

(** The identifiers of the failures a log records. *)
Definition failure_id (e : LogEntry) : option string :=
  match e with
  | LogFailure id _ _ _ _ => Some id
  | _ => None
  end.

Definition failure_ids (ls : list LogEntry) : list string := omap failure_id ls.

(** The entries of the catalog. *)
Definition catalog (g : Globals) : list detailedError :=
  [ error_status_check g; error_no_view_permisson g; error_no_permissons g;
    error_running_query g; error_loading_events g; error_invalid_parameters g ].

Definition is_Close (c : Call) : bool :=
  match c with CClose => true | _ => false end.

Definition is_GetDeviceData (c : Call) : bool :=
  match c with CGetDeviceData _ => true | _ => false end.


(** What the loop of the serializer does to the response for the element
    texts it writes, [n] of them being written already. *)
Fixpoint write_elements (response : ResponseWriter) (n : nat) (elems : list string)
  : ResponseWriter :=
  match elems with
  | [] => response
  | e :: rest =>
      let response := if (0 <? n)%nat then Write "," response else response in
      write_elements (Write e (Write newline response)) (S n) rest
  end.


Section Vocabulary.

Context {Value : Type}.
Variable w : World Value.

(** The response [jsonError] writes for envelope [e] once the identifier
    [id] has been drawn. *)
Definition error_response (res : ResponseWriter) (e : detailedError) (id : string)
  : ResponseWriter :=
  Write (json_Marshal_detailedError w (set_Id id e))
    (WriteHeader (Status e) (Header_Add "content-type" "application/json" res)).

(** The state a block leaves when it falls through having made the calls
    [cs] and logged [ls]. *)
Definition continued (s : State) (cs : list Call) (ls : list LogEntry) : State :=
  {| globals := globals s; logs := logs s ++ ls; calls := calls s ++ cs;
     ticks := ticks s; uuids := uuids s |}.

(** The state a block leaves when, after [cs] and [ls], it reports [e]
    through [jsonError]. *)
Definition aborted (s : State) (cs : list Call) (ls : list LogEntry)
    (e : detailedError) (start : Z) : State :=
  {| globals := globals s;
     logs := logs s ++ ls ++
             [LogFailure (NewV4 w (uuids s)) (Code e) (Now w (ticks s) - start)
                (Message e) (InternalMessage e)];
     calls := calls s ++ cs;
     ticks := S (ticks s);
     uuids := S (uuids s) |}.

(** The identity the authenticator resolves for a request. *)
Definition identity (req : Request) : option TokenData :=
  fst (authenticate w req initial_state).

(** The calls the authenticator makes for a request. *)
Definition auth_calls (req : Request) : list Call :=
  calls (snd (authenticate w req initial_state)).

(** Whether the sharing check lets [user] view [target]. *)
Definition can_view (user target : string) : bool :=
  fst (userCanViewData w user target initial_state).

(** Whether the gate lets the request through. *)
Definition gate_allows (td : option TokenData) (queryParams : Params) : bool :=
  match fst (authorize w newResponse 0 td queryParams initial_state) with
  | Continue _ => true
  | Return _ => false
  end.

(** The gate's reasons to refuse, in the words of the specification: no
    identity; or an identity that is not a server, is not the target, and
    for which the sharing lookup fails or reports neither root nor view. *)
Definition lookup_refuses (user target : string) : Prop :=
  (exists err, UserInGroup w user target = Err err) \/
  (exists perms, UserInGroup w user target = Ok perms /\
                 perm_is_nil perms "root" = true /\
                 perm_is_nil perms "view" = true).

Definition gate_denies (td : option TokenData) (target : string) : Prop :=
  td = None \/
  exists t, td = Some t /\ IsServer t = false /\ UserID t <> target /\
            lookup_refuses (UserID t) target.

(** A date parameter that is given and is not an ISO-8601 timestamp. *)
Definition fails_to_parse (q : Values) (key : string) : Prop :=
  is_Some (q !! key) /\ parseTimestamp w (Get q key) = None.


Definition lookup_error (c : Call) : option LogEntry :=
  match c with
  | CHasMedtronicDirectData u =>
      match HasMedtronicDirectData w u with
      | Err e => Some (LogMedtronicDirectError e) | Ok _ => None end
  | CGetDexcomDataSource u =>
      match GetDexcomDataSource w u with
      | Err e => Some (LogDexcomError e) | Ok _ => None end
  | CHasMedtronicLoopDataAfter u d =>
      match HasMedtronicLoopDataAfter w u d with
      | Err e => Some (LogMedtronicLoopError e) | Ok _ => None end
  | CGetLoopableMedtronicDirectUploadIdsAfter u d =>
      match GetLoopableMedtronicDirectUploadIdsAfter w u d with
      | Err e => Some (LogUploadIdsError e) | Ok _ => None end
  | _ => None
  end.

(** The four lookups for a target user, in the order of the source. *)
Definition lookups_in_order (user : string) : list Call :=
  [ CHasMedtronicDirectData user;
    CGetDexcomDataSource user;
    CHasMedtronicLoopDataAfter user MedtronicLoopBoundaryDate;
    CGetLoopableMedtronicDirectUploadIdsAfter user MedtronicLoopBoundaryDate ].

(** The texts the serializer is to write for a sequence of documents: those
    of the non-empty documents that marshal. *)
Definition written (docs : list (gmap string Value)) : list string :=
  omap (fun d =>
          if (0 <? size d)%nat then
            match json_Marshal_results w d with
            | Ok bytes => Some bytes
            | Err _ => None
            end
          else None) docs.

(** A cursor that produces exactly the given documents. *)
Definition cursor_of (docs : list (gmap string Value)) : list (NextResult Value) :=
  map Produced docs.

(** The documents a cursor produces before it breaks, whether it breaks,
    and what it still holds then. *)
Fixpoint produced (items : list (NextResult Value)) : list (gmap string Value) :=
  match items with
  | Produced d :: rest => d :: produced rest
  | _ => []
  end.

Fixpoint breaks (items : list (NextResult Value)) : bool :=
  match items with
  | [] => false
  | Panics :: _ => true
  | Produced _ :: rest => breaks rest
  end.

Fixpoint unread (items : list (NextResult Value)) : list (NextResult Value) :=
  match items with
  | [] => []
  | Panics :: rest => rest
  | Produced _ :: rest => unread rest
  end.

(** The log lines the serializer is to leave for them. *)
Definition marshal_failures (docs : list (gmap string Value)) : list LogEntry :=
  omap (fun d =>
          if (0 <? size d)%nat then
            match json_Marshal_results w d with
            | Ok _ => None
            | Err err => Some (LogMarshalFailed err)
            end
          else None) docs.

(** How a request was answered: with the envelope of an entry of the
    catalog under the identifier given, or with status 200. *)
Definition answered (g : Globals) (resp : ResponseWriter) (oid : option string)
  : Prop :=
  match oid with
  | Some id => exists e, e ∈ catalog g /\ resp = error_response newResponse e id
  | None => status resp = Some StatusOK
  end.

(** The response after the serializer ran over what a cursor holds. *)
Definition stream_response (res : ResponseWriter) (items : list (NextResult Value))
  : ResponseWriter :=
  let elems := written (produced items) in
  let opened :=
    write_elements
      (Write "[" (Header_Add "Content-Type" "application/json" res)) 0 elems in
  if breaks items then opened
  else Write "]" (if (0 <? length elems)%nat then Write newline opened else opened).

(** The state once the handler has read the clock for [start]. *)
Definition ticked (s : State) : State :=
  {| globals := globals s; logs := logs s; calls := calls s;
     ticks := S (ticks s); uuids := uuids s |}.

(** The facts the enrichment establishes about the filter it resolves from
    the parsed parameters [p0]. *)
Definition resolved_from (req : Request) (p0 p : Params) : Prop :=
  let u := UserId p0 in
  let date := MedtronicLoopBoundaryDate in
  UserId p = u /\
  (URL_Query req !! "carelink" = None ->
   HasMedtronicDirectData w u = Ok false -> Carelink p = true) /\
  (URL_Query req !! "medtronic" = None ->
   HasMedtronicLoopDataAfter w u date = Ok false -> Medtronic p = true) /\
  (Medtronic p = false ->
   GetLoopableMedtronicDirectUploadIdsAfter w u date = Ok (MedtronicUploadIds p) /\
   MedtronicDate p = date).

(** What is common to the runs that get past the parameters: the calls of
    the authenticator and of the gate, and the log of the gate. *)
Definition admission (req : Request) (p0 : Params)
    (gcs : list Call) (gls : list LogEntry) : Prop :=
  Forall (fun c => stage c = 2%nat) gcs /\
  failure_ids gls = [] /\
  (forall t err, identity req = Some t -> IsServer t = false ->
                 UserID t <> UserId p0 ->
                 UserInGroup w (UserID t) (UserId p0) = Err err ->
                 gls = [LogGroupLookupError err]).

(** What is common to the runs that get past the gate: the lookups made. *)
Definition lookups_made (req : Request) (p0 : Params) (ecs : list Call) : Prop :=
  sublist ecs (lookups_in_order (UserId p0)) /\
  (URL_Query req !! "medtronic" = None ->
   HasMedtronicLoopDataAfter w (UserId p0) MedtronicLoopBoundaryDate = Ok false ->
   CGetLoopableMedtronicDirectUploadIdsAfter (UserId p0) MedtronicLoopBoundaryDate
     ∉ ecs).

(** The four ways a run of [GET /{userID}] ends, with the response, the
    cursor, the calls and the log lines of each. *)
Inductive HandlerRun (res : ResponseWriter) (req : Request) (s : State)
  : Outcome Value -> State -> Prop :=
| exit_bad_params err :
    GetParams w (URL_Query req) = Err err ->
    HandlerRun res req s
      {| response :=
           error_response res (error_invalid_parameters (globals s))
             (NewV4 w (uuids s));
         cursor := None; completion := Returns |}
      (aborted (ticked s) [CGetParams] [LogParseError err]
         (error_invalid_parameters (globals s)) (Now w (ticks s)))
| exit_denied p0 gcs gls :
    GetParams w (URL_Query req) = Ok p0 ->
    admission req p0 gcs gls ->
    gate_allows (identity req) p0 = false ->
    HandlerRun res req s
      {| response :=
           error_response res (error_no_view_permisson (globals s))
             (NewV4 w (uuids s));
         cursor := None; completion := Returns |}
      (aborted (ticked s) (CGetParams :: auth_calls req ++ gcs) gls
         (error_no_view_permisson (globals s)) (Now w (ticks s)))
| exit_lookup_failed p0 gcs gls pre c entry :
    GetParams w (URL_Query req) = Ok p0 ->
    admission req p0 gcs gls ->
    gate_allows (identity req) p0 = true ->
    lookups_made req p0 (pre ++ [c]) ->
    Forall (fun c => lookup_error c = None) pre ->
    lookup_error c = Some entry ->
    HandlerRun res req s
      {| response :=
           error_response res (error_running_query (globals s))
             (NewV4 w (uuids s));
         cursor := None; completion := Returns |}
      (aborted (ticked s) (CGetParams :: auth_calls req ++ gcs ++ pre ++ [c])
         (gls ++ [entry]) (error_running_query (globals s)) (Now w (ticks s)))
| exit_streamed p0 gcs gls ecs p items out s' :
    GetParams w (URL_Query req) = Ok p0 ->
    admission req p0 gcs gls ->
    gate_allows (identity req) p0 = true ->
    lookups_made req p0 ecs ->
    Forall (fun c => lookup_error c = None) ecs ->
    resolved_from req p0 p ->
    items = GetDeviceData w p ->
    response out = stream_response res items ->
    cursor out = Some {| pending := unread items; closed := 1 |} ->
    completion out = (if breaks items then Panicked else Returns) ->
    globals s' = globals s ->
    uuids s' = uuids s ->
    calls s' = calls s ++ CGetParams :: auth_calls req ++ gcs ++ ecs ++
               CGetDeviceData p ::
               replicate (S (length (produced items))) CNext ++ [CClose] ->
    logs s' = logs s ++ gls ++
              LogProcessingStarted (Now w (S (S (ticks s))) - Now w (S (ticks s))) ::
              marshal_failures (produced items) ++
              (if breaks items then []
               else [LogProcessingFinished
                       (Now w (S (S (S (ticks s)))) - Now w (S (ticks s)))
                       (length (written (produced items)))]) ->
    HandlerRun res req s out s'.

End Vocabulary.

(** *** JSON arrays (RFC 8259, section 5), over the texts of the elements *)

Definition is_ws (c : Ascii.ascii) : bool :=
  let n := Ascii.nat_of_ascii c in
  (n =? 32)%nat || (n =? 9)%nat || (n =? 10)%nat || (n =? 13)%nat.

Fixpoint ws (s : string) : bool :=
  match s with
  | EmptyString => true
  | String c s' => is_ws c && ws s'
  end.

(** [value *( ws "," ws value )] *)
Inductive JsonElements (V : string -> Prop) : list string -> string -> Prop :=
| elements_one v :
    V v -> JsonElements V [v] v
| elements_more v vs s w1 w2 :
    V v -> ws w1 = true -> ws w2 = true -> JsonElements V vs s ->
    JsonElements V (v :: vs) (v ++ w1 ++ "," ++ w2 ++ s)%string.

(** ["[" ws [ elements ws ] "]"] *)
Inductive JsonArray (V : string -> Prop) : list string -> string -> Prop :=
| array_empty w1 :
    ws w1 = true -> JsonArray V [] ("[" ++ w1 ++ "]")%string
| array_elements vs s w1 w2 :
    ws w1 = true -> ws w2 = true -> JsonElements V vs s ->
    JsonArray V vs ("[" ++ w1 ++ s ++ w2 ++ "]")%string.

(** The body the serializer writes around the element texts. *)
Fixpoint array_tail (elems : list string) : string :=
  match elems with
  | [] => ""
  | e :: rest => ("," ++ newline ++ e ++ array_tail rest)%string
  end.

Definition array_body (elems : list string) : string :=
  match elems with
  | [] => "[]"
  | e :: rest => ("[" ++ newline ++ e ++ array_tail rest ++ newline ++ "]")%string
  end.

(** ** Vocabulary of the further properties *)

(** The user a call on the store is about. *)
Definition store_user (c : Call) : option string :=
  match c with
  | CHasMedtronicDirectData u | CGetDexcomDataSource u
  | CHasMedtronicLoopDataAfter u _
  | CGetLoopableMedtronicDirectUploadIdsAfter u _ => Some u
  | CGetDeviceData p => Some (UserId p)
  | _ => None
  end.

(** The fields of the filter that the handler only reads. *)
Definition same_request (p0 p : Params) : Prop :=
  UserId p = UserId p0 /\ Types p = Types p0 /\ SubTypes p = SubTypes p0 /\
  StartDate p = StartDate p0 /\ EndDate p = EndDate p0 /\ Dexcom p = Dexcom p0.

Section Access.

Context {Value : Type}.
Variable w : World Value.

(** The sharing service grants [user] a view of [target]: it answers with
    permissions whose root or view entry is not nil. *)
Definition grants (user target : string) : Prop :=
  exists perms, UserInGroup w user target = Ok perms /\
    (perm_is_nil perms "root" = false \/ perm_is_nil perms "view" = false).

(** An identity that may view the data of [target]: a server, the target,
    or a user the target shares with. *)
Definition may_view (td : option TokenData) (target : string) : Prop :=
  exists t, td = Some t /\
    (IsServer t = true \/ UserID t = target \/ grants (UserID t) target).

(** The user about whom the gate has to ask the sharing service: the
    identity when it is neither a server nor the target. *)
Definition needs_sharing (td : option TokenData) (target : string) : option string :=
  match td with
  | Some t =>
      if IsServer t || bool_decide (UserID t = target) then None
      else Some (UserID t)
  | None => None
  end.

Definition gate_calls (td : option TokenData) (target : string) : list Call :=
  match needs_sharing td target with
  | Some u => [CUserInGroup u target]
  | None => []
  end.

Definition gate_logs (td : option TokenData) (target : string) : list LogEntry :=
  match needs_sharing td target with
  | Some u =>
      match UserInGroup w u target with
      | Ok perms => [LogPerms perms]
      | Err err => [LogGroupLookupError err]
      end
  | None => []
  end.

(** The lookups a request needs before its query is made with filter [p],
    [p0] being the parameters as parsed. *)
Definition lookups_needed (req : Request) (p0 p : Params) : list Call :=
  let u := UserId p0 in
  let date := MedtronicLoopBoundaryDate in
  match URL_Query req !! "carelink" with
  | Some _ => []
  | None => [CHasMedtronicDirectData u]
  end ++
  (if Dexcom p0 then [] else [CGetDexcomDataSource u]) ++
  match URL_Query req !! "medtronic" with
  | Some _ => []
  | None => [CHasMedtronicLoopDataAfter u date]
  end ++
  (if Medtronic p then []
   else [CGetLoopableMedtronicDirectUploadIdsAfter u date]).

(** The body of a stream that broke: the array opened, the elements written
    so far, and no closing bracket. *)
Definition open_array (elems : list string) : string :=
  match elems with
  | [] => "["
  | e :: rest => ("[" ++ newline ++ e ++ array_tail rest)%string
  end.

(** The documents of a sequence that the serializer skips silently: the
    empty ones. *)
Definition empty_documents (docs : list (gmap string Value)) : list (gmap string Value) :=
  filter (fun d => size d = 0%nat) docs.

End Access.

(** ** A concrete deployment, for running the handlers *)

Module Sample.

Definition params_of (q : Values) : Params :=
  {| UserId := Get q ":userID"; Types := []; SubTypes := [];
     StartDate := None; EndDate := None;
     Carelink := false; Dexcom := false; DexcomDataSource := None;
     Medtronic := false; MedtronicDate := ""; MedtronicUploadIds := [] |}.

Definition alice : TokenData := {| UserID := "A"; IsServer := false |}.

Definition check_token (t : string) : option TokenData :=
  if decide (t = "session-A") then Some alice
  else if decide (t = "session-server") then Some {| UserID := ""; IsServer := true |}
  else None.

Definition restricted : RestrictedToken :=
  {| RestrictedToken_UserID := "A"; RestrictedToken_scope := "/A" |}.

Definition get_restricted_token (v : string) : option RestrictedToken * option error :=
  if decide (v = "rt-1") then (Some restricted, None)
  else (None, Some "restricted token not found").

(** A shares with nobody; B grants A view; the lookup about C fails. *)
Definition user_in_group (user group : string) : result Permissions :=
  if decide (group = "B") then Ok {[ "view" := Some "{}" ]}
  else if decide (group = "C") then Err "gatekeeper unreachable"
  else Ok ∅.

(** Four documents for A: one that marshals, an empty one, one that holds
    a value encoding/json rejects, and one more that marshals; a cursor that
    breaks on its second document for B. *)
Definition documents (user : string) : list (NextResult nat) :=
  if decide (user = "A") then
    [ Produced {[ "value" := 1%nat ]}; Produced ∅;
      Produced {[ "NaN" := 0%nat ]}; Produced {[ "value" := 2%nat ]} ]
  else if decide (user = "B") then
    [ Produced {[ "value" := 3%nat ]}; Panics; Produced {[ "value" := 4%nat ]} ]
  else [].

(** The JSON text of a document holding one value. *)
Definition text (n : nat) : string :=
  ("{" ++ json_key "value" ++ pretty n ++ "}")%string.

Definition marshal (d : gmap string nat) : result string :=
  match d !! "value" with
  | Some n => Ok (text n)
  | None => Err "json: unsupported value: NaN"
  end.

(** What encoding/json promises about the texts above. *)
Definition is_text (bytes : string) : Prop := exists n, bytes = text n.

Definition world : World nat := {|
  Now := fun n => 1000 * Z.of_nat n;
  NewV4 := fun n => ("uuid-" ++ pretty n)%string;
  json_string := fun s => (dquote ++ s ++ dquote)%string;
  json_Marshal_results := marshal;
  parseTimestamp := fun s =>
    if decide (s = "2015-10-10T15:00:00.000Z") then Some s else None;
  parseFilter := fun q => Ok (params_of q);
  CheckToken := check_token;
  GetRestrictedToken := get_restricted_token;
  Authenticates := fun _ _ => true;
  UserInGroup := user_in_group;
  Ping := None;
  HasMedtronicDirectData := fun _ => Ok false;
  GetDexcomDataSource := fun _ => Ok (Some "dexcom-api");
  HasMedtronicLoopDataAfter := fun _ _ => Ok true;
  GetLoopableMedtronicDirectUploadIdsAfter := fun _ _ => Ok ["upload-1"];
  GetDeviceData := fun p => documents (UserId p)
|}.


Definition request (token : list string) (query : list (string * list string)) : Request :=
  {| Header := match token with
               | [] => ∅
               | _ => {[ "x-tidepool-session-token" := token ]}
               end;
     URL_Query := list_to_map query |}.

(** A asks for A's data with a session token. *)
Definition own_data : Request :=
  request ["session-A"] [(":userID", ["A"])].

(** A asks for the data of C, about whom the sharing lookup fails. *)
Definition other_data : Request :=
  request ["session-A"] [(":userID", ["C"])].

(** A asks for the data of B, whose cursor breaks. *)
Definition shared_data : Request :=
  request ["session-A"] [(":userID", ["B"])].

(** Nobody asks for A's data since something that is not a date. *)
Definition anonymous_bad_date : Request :=
  request [] [(":userID", ["A"]); ("startDate", ["not-a-date"])].

(** Nobody asks for A's data. *)
Definition anonymous : Request :=
  request [] [(":userID", ["A"])].

(** A restricted token bound to A, and no session token. *)
Definition with_restricted_token : Request :=
  request [] [(":userID", ["A"]); ("restricted_token", ["rt-1"])].

(** The documents of A, as a list. *)
Definition documents_of_A : list (gmap string nat) :=
  [ {[ "value" := 1%nat ]}; ∅; {[ "NaN" := 0%nat ]}; {[ "value" := 2%nat ]} ].

(** A's session, then a status probe, an anonymous request with a bad
    date, A asking for C, and A asking for B. *)
Definition traffic : list Incoming :=
  [ GetData own_data; GetStatus; GetData anonymous_bad_date;
    GetData other_data; GetData shared_data ].

End Sample.

(** ** Running the blocks *)

(** Evaluates a block on a symbolic state and normalises the lists. *)
Ltac run :=
  unfold bind, bindH, lift, ret, called, log_Println, global, continued, aborted;
  simpl; rewrite ?app_nil_r, <- ?app_assoc; simpl; try reflexivity.

Section Runs.

Context {Value : Type}.
Variable w : World Value.

Lemma continued_nil s : continued s [] [] = s.
Proof. unfold continued. by rewrite !app_nil_r. Qed.

Lemma continued_continued s cs ls cs' ls' :
  continued (continued s cs ls) cs' ls' = continued s (cs ++ cs') (ls ++ ls').
Proof. unfold continued; simpl. by rewrite !app_assoc. Qed.

Lemma aborted_continued s cs ls cs' ls' e start :
  aborted w (continued s cs ls) cs' ls' e start
  = aborted w s (cs ++ cs') (ls ++ ls') e start.
Proof. unfold aborted, continued; simpl. by rewrite !app_assoc. Qed.

Lemma called_run c s : called c s = (tt, continued s [c] []).
Proof. unfold called, continued. by rewrite app_nil_r. Qed.

Lemma log_Println_run e s : log_Println e s = (tt, continued s [] [e]).
Proof. unfold log_Println, continued. by rewrite app_nil_r. Qed.

Lemma bindH_continue {A B} (m : H A) (k : A -> H B) s a s' :
  m s = (Continue a, s') -> bindH m k s = k a s'.
Proof. unfold bindH. by intros ->. Qed.

Lemma bindH_return {A B} (m : H A) (k : A -> H B) s res s' :
  m s = (Return res, s') -> bindH m k s = (Return res, s').
Proof. unfold bindH. by intros ->. Qed.

Lemma jsonError_run res e start s :
  jsonError w res e start s
  = (error_response w res e (NewV4 w (uuids s)), aborted w s [] [] e start).
Proof.
  unfold jsonError, bind, uuid_NewV4, time_Now, log_Println, ret,
    error_response, aborted; simpl.
  by rewrite app_nil_r.
Qed.

(** A block that logs, then reports an envelope of the catalog. *)
Lemma report_run {A} (f : Globals -> detailedError) res start cs ls s :
  (e <- global f ;; res' <- jsonError w res e start ;; ret (Return (A:=A) res'))
    (continued s cs ls)
  = (Return (error_response w res (f (globals s)) (NewV4 w (uuids s))),
     aborted w s cs ls (f (globals s)) start).
Proof.
  unfold bind, global; cbv beta iota. rewrite jsonError_run; cbv beta iota.
  unfold ret. by rewrite aborted_continued, !app_nil_r.
Qed.

(** *** The authenticator *)

Lemma authenticate_run req s :
  authenticate w req s = (identity w req, continued s (auth_calls w req) []).
Proof.
  unfold identity, auth_calls, authenticate.
  case_bool_decide; [by run|].
  destruct (URL_Query req !! "restricted_token") as [[|t [|t' ts]]|];
    try by run.
  destruct (GetRestrictedToken w t) as [[rt|] [err|]]; try by run.
  destruct (Authenticates w rt req); by run.
Qed.


Lemma auth_calls_eq req :
  auth_calls w req =
  let tok := Get (Header req) "x-tidepool-session-token" in
  if bool_decide (tok <> "") then [CCheckToken tok]
  else
    match URL_Query req !! "restricted_token" with
    | Some [v] =>
        CGetRestrictedToken v ::
        match GetRestrictedToken w v with
        | (Some rt, None) => [CAuthenticates rt]
        | _ => []
        end
    | _ => []
    end.
Proof.
  unfold auth_calls, authenticate. simpl.
  case_bool_decide; [done|].
  destruct (URL_Query req !! "restricted_token") as [[|t [|t' ts]]|]; try done.
  unfold bind, called. simpl.
  destruct (GetRestrictedToken w t) as [[rt|] [err|]]; try done.
  by destruct (Authenticates w rt req).
Qed.

Lemma auth_calls_stage req : Forall (fun c => stage c = 1%nat) (auth_calls w req).
Proof.
  rewrite auth_calls_eq. simpl. case_bool_decide; [by repeat constructor|].
  destruct (URL_Query req !! "restricted_token") as [[|t [|t' ts]]|];
    try by constructor.
  destruct (GetRestrictedToken w t) as [[rt|] [err|]]; by repeat constructor.
Qed.

(** *** The gate *)

Lemma userCanViewData_run u t s :
  exists cs ls,
    userCanViewData w u t s = (can_view w u t, continued s cs ls) /\
    Forall (fun c => stage c = 2%nat) cs /\
    failure_ids ls = [] /\
    (forall err, u <> t -> UserInGroup w u t = Err err ->
                 ls = [LogGroupLookupError err]).
Proof.
  unfold can_view, userCanViewData.
  destruct (decide (u = t)) as [->|Hne].
  - exists [], []. unfold ret; simpl. rewrite continued_nil.
    repeat split; [constructor | congruence].
  - unfold bind. rewrite !called_run.
    destruct (UserInGroup w u t) as [perms|err] eqn:E.
    + exists [CUserInGroup u t], [LogPerms perms].
      rewrite !log_Println_run. unfold ret; simpl.
      rewrite continued_continued.
      repeat split; [by repeat constructor | congruence].
    + exists [CUserInGroup u t], [LogGroupLookupError err].
      rewrite !log_Println_run. unfold ret; simpl.
      rewrite continued_continued.
      repeat split; [by repeat constructor | congruence].
Qed.

Lemma can_view_false u t :
  can_view w u t = false <-> u <> t /\ lookup_refuses w u t.
Proof.
  unfold can_view, userCanViewData, lookup_refuses.
  destruct (decide (u = t)) as [->|Hne]; simpl.
  - split; [discriminate | by intros [? _]].
  - unfold bind. rewrite called_run.
    destruct (UserInGroup w u t) as [perms|err];
      rewrite log_Println_run; unfold ret; simpl.
    + rewrite negb_false_iff, andb_true_iff. split.
      * intros [? ?]. split; [done|]. right. by exists perms.
      * intros [_ [[err ?]|[perms' [[= <-] ?]]]]; [done|done].
    + split; [|done]. intros _. split; [done|]. left. by exists err.
Qed.

Lemma gate_allows_eq td p :
  gate_allows w td p =
  match td with
  | None => false
  | Some t => IsServer t || bool_decide (UserID t = UserId p)
              || can_view w (UserID t) (UserId p)
  end.
Proof.
  unfold gate_allows, authorize. destruct td as [t|]; [|by run].
  destruct (IsServer t || bool_decide (UserID t = UserId p)); [by run|].
  destruct (userCanViewData_run (UserID t) (UserId p) initial_state)
    as (cs & ls & Hrun & _).
  unfold bind at 1. rewrite Hrun.
  by destruct (can_view w (UserID t) (UserId p)); run.
Qed.

Lemma gate_allows_false td p :
  gate_allows w td p = false <-> gate_denies w td (UserId p).
Proof.
  rewrite gate_allows_eq. unfold gate_denies. destruct td as [t|].
  - rewrite !orb_false_iff, can_view_false, bool_decide_eq_false. split.
    + intros [[? ?] [? ?]]. right. by exists t.
    + intros [?|(t' & [= <-] & ? & ? & ?)]; [done|by repeat split].
  - split; [by left|done].
Qed.

Lemma authorize_run res start td p s :
  exists cs ls,
    Forall (fun c => stage c = 2%nat) cs /\
    failure_ids ls = [] /\
    (forall t err, td = Some t -> IsServer t = false -> UserID t <> UserId p ->
                   UserInGroup w (UserID t) (UserId p) = Err err ->
                   ls = [LogGroupLookupError err]) /\
    authorize w res start td p s =
      if gate_allows w td p then (Continue tt, continued s cs ls)
      else (Return (error_response w res (error_no_view_permisson (globals s))
                      (NewV4 w (uuids s))),
            aborted w s cs ls (error_no_view_permisson (globals s)) start).
Proof.
  rewrite gate_allows_eq. unfold authorize. destruct td as [t|].
  - destruct (IsServer t || bool_decide (UserID t = UserId p)) eqn:E.
    + exists [], []. repeat split; [constructor| |by run].
      intros t' err [= <-] Hs Hne _. rewrite Hs in E. simpl in E.
      by apply bool_decide_eq_true in E.
    + destruct (userCanViewData_run (UserID t) (UserId p) s)
        as (cs & ls & Hrun & Hst & Hnf & Hlog).
      exists cs, ls. repeat split; [done|done| |].
      * intros t' err [= <-] _ Hne Herr. by apply Hlog.
      * unfold bind at 1. rewrite Hrun. simpl.
        destruct (can_view w (UserID t) (UserId p)); simpl; [done|].
        apply (report_run error_no_view_permisson).
  - exists [], []. repeat split; [constructor|done|].
    unfold bind at 1, ret at 1. simpl.
    rewrite <- (continued_nil s) at 1.
    apply (report_run error_no_view_permisson).
Qed.

(** *** Reading the parameters *)

Lemma parseParams_run res req start s :
  parseParams w res req start s =
  match GetParams w (URL_Query req) with
  | Err err =>
      (Return (error_response w res (error_invalid_parameters (globals s))
                 (NewV4 w (uuids s))),
       aborted w s [CGetParams] [LogParseError err]
         (error_invalid_parameters (globals s)) start)
  | Ok p => (Continue p, continued s [CGetParams] [])
  end.
Proof.
  unfold parseParams. unfold bind at 1. rewrite called_run.
  destruct (GetParams w (URL_Query req)) as [p|err]; [done|].
  unfold bind at 1. rewrite log_Println_run, continued_continued.
  apply (report_run error_invalid_parameters).
Qed.

(** *** The enrichment lookups *)

(** How a lookup block ends when the store answers with an error. *)
Lemma lookup_failed_run res start c entry s :
  (called c ;;;
   log_Println entry ;;;
   e <- global error_running_query ;;
   res' <- jsonError w res e start ;; ret (Return (A:=Params) res')) s
  = (Return (error_response w res (error_running_query (globals s))
               (NewV4 w (uuids s))),
     aborted w s [c] [entry] (error_running_query (globals s)) start).
Proof.
  unfold bind at 1. rewrite called_run.
  unfold bind at 1. rewrite log_Println_run, continued_continued.
  apply (report_run error_running_query).
Qed.

Lemma lookup_passed_run c (p : Params) s :
  (called c ;;; ret (Continue p)) s = (Continue p, continued s [c] []).
Proof. unfold bind. by rewrite called_run. Qed.

Lemma enrichCarelink_run res req start p s :
  let c := CHasMedtronicDirectData (UserId p) in
  exists cs, sublist cs [c] /\
    ((exists p',
        enrichCarelink w res req start p s = (Continue p', continued s cs []) /\
        Forall (fun c => lookup_error w c = None) cs /\
        UserId p' = UserId p /\ Dexcom p' = Dexcom p /\
        Medtronic p' = Medtronic p /\
        (URL_Query req !! "carelink" = None ->
         HasMedtronicDirectData w (UserId p) = Ok false -> Carelink p' = true))
     \/
     (exists entry,
        cs = [c] /\ lookup_error w c = Some entry /\
        enrichCarelink w res req start p s =
        (Return (error_response w res (error_running_query (globals s))
                   (NewV4 w (uuids s))),
         aborted w s [c] [entry] (error_running_query (globals s)) start))).
Proof.
  intros c. unfold enrichCarelink.
  destruct (URL_Query req !! "carelink") as [vs|] eqn:Eq.
  - exists []. split; [apply sublist_nil_l|]. left. exists p.
    unfold ret. rewrite continued_nil. by repeat split.
  - destruct (HasMedtronicDirectData w (UserId p)) as [b|err] eqn:E.
    + exists [c]. split; [done|]. left.
      exists (if negb b then set_Carelink true p else p).
      split; [by destruct b; apply lookup_passed_run|].
      split; [repeat constructor; simpl; by rewrite E|].
      destruct b; repeat split; simpl; congruence.
    + exists [c]. split; [done|]. right. exists (LogMedtronicDirectError err).
      repeat split; first [apply lookup_failed_run | simpl; by rewrite ?E].
Qed.

Lemma enrichDexcom_run res start p s :
  let c := CGetDexcomDataSource (UserId p) in
  exists cs, sublist cs [c] /\
    ((exists p',
        enrichDexcom w res start p s = (Continue p', continued s cs []) /\
        Forall (fun c => lookup_error w c = None) cs /\
        UserId p' = UserId p /\ Carelink p' = Carelink p /\
        Medtronic p' = Medtronic p)
     \/
     (exists entry,
        cs = [c] /\ lookup_error w c = Some entry /\
        enrichDexcom w res start p s =
        (Return (error_response w res (error_running_query (globals s))
                   (NewV4 w (uuids s))),
         aborted w s [c] [entry] (error_running_query (globals s)) start))).
Proof.
  intros c. unfold enrichDexcom. destruct (Dexcom p); simpl.
  - exists []. split; [apply sublist_nil_l|]. left. exists p.
    unfold ret. rewrite continued_nil. by repeat split.
  - destruct (GetDexcomDataSource w (UserId p)) as [d|err] eqn:E.
    + exists [c]. split; [done|]. left. exists (set_DexcomDataSource d p).
      split; [apply lookup_passed_run|].
      split; [repeat constructor; simpl; by rewrite ?E|done].
    + exists [c]. split; [done|]. right. exists (LogDexcomError err).
      repeat split; first [apply lookup_failed_run | simpl; by rewrite ?E].
Qed.

Lemma enrichMedtronic_run res req start p s :
  let c := CHasMedtronicLoopDataAfter (UserId p) MedtronicLoopBoundaryDate in
  exists cs, sublist cs [c] /\
    ((exists p',
        enrichMedtronic w res req start p s = (Continue p', continued s cs []) /\
        Forall (fun c => lookup_error w c = None) cs /\
        UserId p' = UserId p /\ Carelink p' = Carelink p /\
        (URL_Query req !! "medtronic" = None ->
         HasMedtronicLoopDataAfter w (UserId p) MedtronicLoopBoundaryDate = Ok false ->
         Medtronic p' = true))
     \/
     (exists entry,
        cs = [c] /\ lookup_error w c = Some entry /\
        enrichMedtronic w res req start p s =
        (Return (error_response w res (error_running_query (globals s))
                   (NewV4 w (uuids s))),
         aborted w s [c] [entry] (error_running_query (globals s)) start))).
Proof.
  intros c. unfold enrichMedtronic.
  destruct (URL_Query req !! "medtronic") as [vs|] eqn:Eq.
  - exists []. split; [apply sublist_nil_l|]. left. exists p.
    unfold ret. rewrite continued_nil. by repeat split.
  - destruct (HasMedtronicLoopDataAfter w (UserId p) MedtronicLoopBoundaryDate)
      as [b|err] eqn:E.
    + exists [c]. split; [done|]. left.
      exists (if negb b then set_Medtronic true p else p).
      split; [by destruct b; apply lookup_passed_run|].
      split; [repeat constructor; simpl; by rewrite E|].
      destruct b; repeat split; simpl; congruence.
    + exists [c]. split; [done|]. right. exists (LogMedtronicLoopError err).
      repeat split; first [apply lookup_failed_run | simpl; by rewrite ?E].
Qed.

Lemma enrichUploadIds_run res start p s :
  let c := CGetLoopableMedtronicDirectUploadIdsAfter (UserId p)
             MedtronicLoopBoundaryDate in
  exists cs, sublist cs [c] /\ (Medtronic p = true -> cs = []) /\
    ((exists p',
        enrichUploadIds w res start p s = (Continue p', continued s cs []) /\
        Forall (fun c => lookup_error w c = None) cs /\
        UserId p' = UserId p /\ Carelink p' = Carelink p /\
        Medtronic p' = Medtronic p /\
        (Medtronic p' = false ->
         GetLoopableMedtronicDirectUploadIdsAfter w (UserId p)
           MedtronicLoopBoundaryDate = Ok (MedtronicUploadIds p') /\
         MedtronicDate p' = MedtronicLoopBoundaryDate))
     \/
     (exists entry,
        cs = [c] /\ lookup_error w c = Some entry /\
        enrichUploadIds w res start p s =
        (Return (error_response w res (error_running_query (globals s))
                   (NewV4 w (uuids s))),
         aborted w s [c] [entry] (error_running_query (globals s)) start))).
Proof.
  intros c. unfold enrichUploadIds. destruct (Medtronic p) eqn:Em; simpl.
  - exists []. split; [apply sublist_nil_l|]. split; [done|]. left. exists p.
    unfold ret. rewrite continued_nil. repeat split; try done; congruence.
  - destruct (GetLoopableMedtronicDirectUploadIdsAfter w (UserId p)
                MedtronicLoopBoundaryDate) as [ids|err] eqn:E.
    + exists [c]. split; [done|]. split; [done|]. left.
      exists (set_MedtronicLoop MedtronicLoopBoundaryDate ids p).
      split; [apply lookup_passed_run|].
      split; [repeat constructor; simpl; by rewrite E|done].
    + exists [c]. split; [done|]. split; [done|]. right.
      exists (LogUploadIdsError err).
      repeat split; first [apply lookup_failed_run | simpl; by rewrite ?E].
Qed.

Lemma sublist_singleton_elem (cs : list Call) c x :
  sublist cs [c] -> x ∈ cs -> x = c.
Proof.
  intros Hs Hx. apply sublist_subseteq in Hs.
  specialize (Hs x Hx). by apply list_elem_of_singleton in Hs.
Qed.

(** Lines 493-529 as a whole: the calls made are a subsequence of the four
    lookups; either all of them succeeded and the filter is resolved, or the
    last one failed and the store error is reported. *)
Lemma enrich_run res req start p s :
  let u := UserId p in
  let q := URL_Query req in
  let date := MedtronicLoopBoundaryDate in
  exists cs, sublist cs (lookups_in_order u) /\
    (q !! "medtronic" = None ->
     HasMedtronicLoopDataAfter w u date = Ok false ->
     CGetLoopableMedtronicDirectUploadIdsAfter u date ∉ cs) /\
    ((exists p',
        enrich w res req start p s = (Continue p', continued s cs []) /\
        Forall (fun c => lookup_error w c = None) cs /\
        UserId p' = u /\
        (q !! "carelink" = None -> HasMedtronicDirectData w u = Ok false ->
         Carelink p' = true) /\
        (q !! "medtronic" = None -> HasMedtronicLoopDataAfter w u date = Ok false ->
         Medtronic p' = true) /\
        (Medtronic p' = false ->
         GetLoopableMedtronicDirectUploadIdsAfter w u date = Ok (MedtronicUploadIds p') /\
         MedtronicDate p' = date))
     \/
     (exists pre c entry,
        cs = pre ++ [c] /\ Forall (fun c => lookup_error w c = None) pre /\
        lookup_error w c = Some entry /\
        enrich w res req start p s =
        (Return (error_response w res (error_running_query (globals s))
                   (NewV4 w (uuids s))),
         aborted w s cs [entry] (error_running_query (globals s)) start))).
Proof.
  intros u q date. unfold enrich, lookups_in_order.
  destruct (enrichCarelink_run res req start p s)
    as (cs1 & Hs1 & [(p1 & R1 & F1 & U1 & D1 & M1 & C1)|(e1 & -> & L1 & R1)]).
  2:{ rewrite (bindH_return _ _ _ _ _ R1).
      exists [CHasMedtronicDirectData u]. split; [by apply sublist_skip, sublist_nil_l|].
      split; [intros _ _ Hin; by apply list_elem_of_singleton in Hin|].
      right. exists [], (CHasMedtronicDirectData u), e1. by repeat split. }
  rewrite (bindH_continue _ _ _ _ _ R1).
  destruct (enrichDexcom_run res start p1 (continued s cs1 []))
    as (cs2 & Hs2 & [(p2 & R2 & F2 & U2 & C2 & M2)|(e2 & -> & L2 & R2)]);
    rewrite U1 in *.
  2:{ rewrite (bindH_return _ _ _ _ _ R2), aborted_continued. simpl.
      exists (cs1 ++ [CGetDexcomDataSource u]). split.
      { apply (sublist_app _ [_] _ [_; _; _]); [done|].
        by apply sublist_skip, sublist_nil_l. }
      split.
      { intros _ _ Hin. apply elem_of_app in Hin as [Hin|Hin].
        - by apply (sublist_singleton_elem _ _ _ Hs1) in Hin.
        - by apply list_elem_of_singleton in Hin. }
      right. exists cs1, (CGetDexcomDataSource u), e2. by repeat split. }
  rewrite (bindH_continue _ _ _ _ _ R2), continued_continued. simpl.
  destruct (enrichMedtronic_run res req start p2 (continued s (cs1 ++ cs2) []))
    as (cs3 & Hs3 & [(p3 & R3 & F3 & U3 & C3 & M3)|(e3 & -> & L3 & R3)]);
    rewrite U2 in *.
  2:{ rewrite (bindH_return _ _ _ _ _ R3), aborted_continued. simpl.
      exists (cs1 ++ cs2 ++ [CHasMedtronicLoopDataAfter u date]). split.
      { apply (sublist_app _ [_] _ [_; _; _]); [done|].
        apply (sublist_app _ [_] _ [_; _]); [done|].
        by apply sublist_skip, sublist_nil_l. }
      split.
      { intros _ _ Hin. apply elem_of_app in Hin as [Hin|Hin].
        - by apply (sublist_singleton_elem _ _ _ Hs1) in Hin.
        - apply elem_of_app in Hin as [Hin|Hin].
          + by apply (sublist_singleton_elem _ _ _ Hs2) in Hin.
          + by apply list_elem_of_singleton in Hin. }
      right. exists (cs1 ++ cs2), (CHasMedtronicLoopDataAfter u date), e3.
      rewrite <- !app_assoc, ?Forall_app. by repeat split. }
  rewrite (bindH_continue _ _ _ _ _ R3), continued_continued. simpl.
  destruct (enrichUploadIds_run res start p3 (continued s ((cs1 ++ cs2) ++ cs3) []))
    as (cs4 & Hs4 & Hskip & [(p4 & R4 & F4 & U4 & C4 & M4 & I4)|(e4 & -> & L4 & R4)]);
    rewrite U3 in *.
  2:{ rewrite !aborted_continued in R4. simpl in R4. rewrite R4.
      exists (((cs1 ++ cs2) ++ cs3) ++
              [CGetLoopableMedtronicDirectUploadIdsAfter u date]). split.
      { rewrite <- !app_assoc.
        apply (sublist_app _ [_] _ [_; _; _]); [done|].
        apply (sublist_app _ [_] _ [_; _]); [done|].
        by apply (sublist_app _ [_] _ [_]). }
      split.
      { intros Hq Hl. specialize (M3 Hq Hl). by specialize (Hskip M3). }
      right. exists ((cs1 ++ cs2) ++ cs3),
        (CGetLoopableMedtronicDirectUploadIdsAfter u date), e4.
      rewrite ?Forall_app; by repeat split. }
  rewrite continued_continued in R4. simpl in R4. rewrite R4.
  exists (((cs1 ++ cs2) ++ cs3) ++ cs4). split.
  { rewrite <- !app_assoc.
    apply (sublist_app _ [_] _ [_; _; _]); [done|].
    apply (sublist_app _ [_] _ [_; _]); [done|].
    by apply (sublist_app _ [_] _ [_]). }
  split.
  { intros Hq Hl Hin. specialize (M3 Hq Hl). rewrite (Hskip M3) in Hin.
    rewrite app_nil_r in Hin.
    apply elem_of_app in Hin as [Hin|Hin];
      [apply elem_of_app in Hin as [Hin|Hin]|].
    - by apply (sublist_singleton_elem _ _ _ Hs1) in Hin.
    - by apply (sublist_singleton_elem _ _ _ Hs2) in Hin.
    - by apply (sublist_singleton_elem _ _ _ Hs3) in Hin. }
  left. exists p4. split; [done|].
  split; [rewrite !Forall_app; by repeat split|]. split; [done|].
  split; [intros Hq Hl; rewrite C4, C3, C2; by apply C1|].
  split; [intros Hq Hl; rewrite M4; by apply M3|done].
Qed.

(** *** The serializer *)

Lemma Write_body b r : body (Write b r) = (body r ++ b)%string.
Proof. unfold Write, WriteHeader. by destruct (status r). Qed.

Lemma WriteHeader_body c r : body (WriteHeader c r) = body r.
Proof. unfold WriteHeader. by destruct (status r). Qed.

Lemma Write_headers b r : headers (Write b r) = headers r.
Proof. unfold Write, WriteHeader. by destruct (status r). Qed.

Lemma Write_status b r :
  status (Write b r) = Some (default StatusOK (status r)).
Proof.
  unfold Write, WriteHeader. destruct (status r) eqn:E; simpl; by rewrite ?E.
Qed.

Lemma string_app_cons x (a b : string) :
  (String x a ++ b)%string = String x (a ++ b).
Proof. reflexivity. Qed.

Lemma string_app_assoc (a b c : string) : ((a ++ b) ++ c = a ++ (b ++ c))%string.
Proof.
  induction a as [|x a IH]; [done|]. by rewrite !string_app_cons, IH.
Qed.

Lemma string_app_nil_r (a : string) : (a ++ "")%string = a.
Proof.
  induction a as [|x a IH]; [done|]. by rewrite string_app_cons, IH.
Qed.

Lemma processResults_loop_run items : forall response n s,
  processResults_loop w response items n s =
  ((if breaks items then Panicked else Returns,
    write_elements response n (written w (produced items)),
    unread items,
    (n + length (written w (produced items)))%nat),
   continued s (replicate (S (length (produced items))) CNext)
     (marshal_failures w (produced items))).
Proof.
  induction items as [|[d|] items IH]; intros response n s.
  - simpl. unfold bind. rewrite called_run. unfold ret. by rewrite Nat.add_0_r.
  - simpl. unfold bind at 1. rewrite called_run.
    destruct (0 <? size d)%nat.
    + destruct (json_Marshal_results w d) as [bytes|err]; simpl.
      * rewrite IH, continued_continued. simpl.
        by rewrite Nat.add_succ_r.
      * unfold bind at 1. rewrite log_Println_run, IH, !continued_continued.
        done.
    + rewrite IH, continued_continued. done.
  - simpl. unfold bind. rewrite called_run. unfold ret. by rewrite Nat.add_0_r.
Qed.

Lemma write_elements_body elems : forall response n,
  body (write_elements response n elems) =
  (body response ++
   match elems with
   | [] => ""
   | e :: rest => (if (0 <? n)%nat then "," else "") ++ newline ++ e ++ array_tail rest
   end)%string.
Proof.
  induction elems as [|e rest IH]; intros response n; simpl.
  - by rewrite string_app_nil_r.
  - rewrite IH, !Write_body. destruct rest as [|e' rest].
    + destruct (0 <? n)%nat; rewrite ?Write_body, ?string_app_assoc;
        simpl; by rewrite ?string_app_nil_r.
    + destruct (0 <? n)%nat; rewrite ?Write_body, ?string_app_assoc; simpl; done.
Qed.

Lemma write_elements_headers elems : forall response n,
  headers (write_elements response n elems) = headers response.
Proof.
  induction elems as [|e rest IH]; intros response n; simpl; [done|].
  rewrite IH, !Write_headers. destruct (0 <? n)%nat; by rewrite ?Write_headers.
Qed.

Lemma write_elements_status elems : forall response n c,
  status response = Some c -> status (write_elements response n elems) = Some c.
Proof.
  induction elems as [|e rest IH]; intros response n c Hc; simpl; [done|].
  apply IH. rewrite !Write_status.
  destruct (0 <? n)%nat; rewrite ?Write_status, Hc; done.
Qed.

Lemma processResults_run response it start s :
  let items := pending it in
  processResults w response it start s =
  ((if breaks items then Panicked else Returns,
    stream_response w response items,
    {| pending := unread items; closed := closed it |}),
   {| globals := globals s;
      logs := logs s ++
              LogProcessingStarted (Now w (ticks s) - start) ::
              marshal_failures w (produced items) ++
              (if breaks items then []
               else [LogProcessingFinished (Now w (S (ticks s)) - start)
                       (length (written w (produced items)))]);
      calls := calls s ++ replicate (S (length (produced items))) CNext;
      ticks := if breaks items then S (ticks s) else S (S (ticks s));
      uuids := uuids s |}).
Proof.
  intros items. unfold processResults, stream_response.
  unfold bind, time_Now, log_Println. cbv beta iota.
  rewrite processResults_loop_run. fold items.
  destruct (breaks items); unfold ret, continued; simpl.
  - by rewrite ?app_nil_r, <- ?app_assoc.
  - by rewrite ?app_nil_r, <- ?app_assoc.
Qed.

Lemma queryAndStream_run res p s :
  let items := GetDeviceData w p in
  let r := queryAndStream w res p s in
  response r.1 = stream_response w res items /\
  cursor r.1 = Some {| pending := unread items; closed := 1 |} /\
  completion r.1 = (if breaks items then Panicked else Returns) /\
  globals r.2 = globals s /\ uuids r.2 = uuids s /\
  calls r.2 = calls s ++ CGetDeviceData p ::
              replicate (S (length (produced items))) CNext ++ [CClose] /\
  logs r.2 = logs s ++
             LogProcessingStarted (Now w (S (ticks s)) - Now w (ticks s)) ::
             marshal_failures w (produced items) ++
             (if breaks items then []
              else [LogProcessingFinished (Now w (S (S (ticks s))) - Now w (ticks s))
                      (length (written w (produced items)))]).
Proof.
  intros items r. subst r. unfold queryAndStream.
  unfold bind, time_Now, called, Close. cbv beta iota.
  rewrite processResults_run. cbv beta iota zeta. unfold ret. simpl.
  fold items. rewrite <- !app_assoc. by repeat split.
Qed.

Lemma lift_run {A} (m : M A) s a s' :
  m s = (a, s') -> lift m s = (Continue a, s').
Proof. unfold lift, bind, ret. by intros ->. Qed.

(** Every run of the data handler ends in one of the four ways. *)
Lemma handle_data_run res req s out s' :
  handle_data w res req s = (out, s') -> HandlerRun w res req s out s'.
Proof.
  unfold handle_data. unfold bind at 1, time_Now at 1. cbv beta iota.
  fold (ticked s). set (s1 := ticked s). set (start := Now w (ticks s)).
  unfold bind at 1, resolveFilter.
  pose proof (parseParams_run res req start s1) as Hp.
  destruct (GetParams w (URL_Query req)) as [p0|err] eqn:EG.
  2:{ rewrite (bindH_return _ _ _ _ _ Hp). intros [= <- <-].
      by apply exit_bad_params. }
  rewrite (bindH_continue _ _ _ _ _ Hp).
  rewrite (bindH_continue _ _ _ _ _ (lift_run _ _ _ _ (authenticate_run _ _))).
  rewrite continued_continued. simpl.
  destruct (authorize_run res start (identity w req) p0
              (continued s1 (CGetParams :: auth_calls w req) []))
    as (gcs & gls & Hst & Hnf & Hlog & Hrun).
  assert (admission w req p0 gcs gls) as Hadm by done.
  destruct (gate_allows w (identity w req) p0) eqn:Egate.
  2:{ rewrite (bindH_return _ _ _ _ _ Hrun), aborted_continued. simpl.
      intros [= <- <-]. by eapply exit_denied. }
  rewrite (bindH_continue _ _ _ _ _ Hrun), continued_continued. simpl.
  destruct (enrich_run res req start p0
              (continued s1 (CGetParams :: auth_calls w req ++ gcs) gls))
    as (ecs & Hsub & Hskip &
        [(p & Hen & Hok & Hu & Hc & Hm & Hi)|(pre & c & entry & -> & Hok & Herr & Hen)]).
  2:{ rewrite Hen, aborted_continued. simpl. rewrite <- !app_assoc.
      intros [= <- <-]. by eapply exit_lookup_failed. }
  rewrite Hen, continued_continued. simpl. rewrite app_nil_r.
  destruct (queryAndStream_run res p
              (continued s1 (CGetParams :: (auth_calls w req ++ gcs) ++ ecs) gls))
    as (Hres & Hcur & Hcomp & Hg & Huu & Hcalls & Hlogs).
  intros E. rewrite E in *. simpl in *.
  apply (exit_streamed w res req s p0 gcs gls ecs p (GetDeviceData w p)); try done.
  - rewrite Hcalls, <- !app_assoc. simpl. by rewrite <- !app_assoc.
  - by rewrite Hlogs, <- !app_assoc.
Qed.

End Runs.

(** ** Properties of the pipeline *)

Section Claims.

Context {Value : Type}.
Variable w : World Value.

Lemma error_response_new e id :
  error_response w newResponse e id =
  {| headers := [("content-type", "application/json")];
     status := Some (Status e);
     body := json_Marshal_detailedError w (set_Id id e) |}.
Proof. reflexivity. Qed.

(** The response does not depend on the internal message of the envelope,
    nor on an identifier it carried before. *)
Lemma error_response_internal res e internal id :
  error_response w res (setInternalMessage e internal) id = error_response w res e id.
Proof. reflexivity. Qed.

Lemma error_response_Id res e old id :
  error_response w res (set_Id old e) id = error_response w res e id.
Proof. reflexivity. Qed.

Lemma GetParams_bad_date q :
  fails_to_parse w q "startDate" \/ fails_to_parse w q "endDate" ->
  exists err, GetParams w q = Err err.
Proof.
  unfold fails_to_parse, GetParams, readDate.
  intros [[[vs Hq] Hp]|[[vs Hq] Hp]]; rewrite Hq, Hp.
  - eauto.
  - destruct (q !! "startDate");
      [destruct (parseTimestamp w (Get q "startDate"))|]; eauto.
Qed.

(** C6. A request whose startDate or endDate is given and does not parse as
    an ISO-8601 timestamp is answered with the envelope whose code is
    invalid_parameters, under the server-error status 500; nothing but the
    parameter reading has taken place. *)
Theorem C6_malformed_date_is_reported_as_500 req s :
  globals s = package_vars ->
  fails_to_parse w (URL_Query req) "startDate" \/
  fails_to_parse w (URL_Query req) "endDate" ->
  let r := handle_data w newResponse req s in
  response r.1 =
    error_response w newResponse
      (catalogEntry 500 "invalid_parameters" "one or more parameters are invalid")
      (NewV4 w (uuids s)) /\
  status (response r.1) = Some StatusInternalServerError /\
  body (response r.1) =
    json_Marshal_detailedError w
      {| Status := 500; Id := NewV4 w (uuids s); Code := "invalid_parameters";
         Message := "one or more parameters are invalid"; InternalMessage := "" |} /\
  cursor r.1 = None /\
  calls r.2 = calls s ++ [CGetParams].
Proof.
  intros Hg Hbad r. subst r.
  destruct (GetParams_bad_date _ Hbad) as [err Herr].
  destruct (handle_data w newResponse req s) as [out s'] eqn:E.
  apply handle_data_run in E.
  inversion E as [err' HG|p0 ? ? HG|p0 ? ? ? ? ? HG|p0 ? ? ? ? ? ? ? HG];
    subst; try congruence.
  simpl. rewrite Hg. by repeat split.
Qed.

(** What a run is when the parameters are read and the gate refuses. *)
Lemma denied_run res req s p :
  GetParams w (URL_Query req) = Ok p ->
  gate_allows w (identity w req) p = false ->
  exists gcs gls,
    admission w req p gcs gls /\
    handle_data w res req s =
    ({| response :=
          error_response w res (error_no_view_permisson (globals s))
            (NewV4 w (uuids s));
        cursor := None; completion := Returns |},
     aborted w (ticked s) (CGetParams :: auth_calls w req ++ gcs) gls
       (error_no_view_permisson (globals s)) (Now w (ticks s))).
Proof.
  intros Hp Hdeny.
  destruct (handle_data w res req s) as [out s'] eqn:E.
  apply handle_data_run in E.
  inversion E as [err' HG|p0 gcs gls HG Hadm|p0 ? ? ? ? ? HG|p0 ? ? ? ? ? ? ? HG];
    subst; try congruence.
  assert (p0 = p) as -> by congruence. by exists gcs, gls.
Qed.

(** C1, as the code has it.  When the parameters have been read, so that
    the target user is known, a request with no resolved identity, or with an identity that is
    not a server, is not the target, and for which the sharing lookup fails
    or reports neither root nor view, is answered with the one 403 envelope
    whose code is data_cant_view.  The response is the same whatever the
    reason (it depends on the identifier drawn only); a failed lookup is
    logged; no cursor is acquired. *)
Theorem C1_denial_is_uniform req s p :
  globals s = package_vars ->
  GetParams w (URL_Query req) = Ok p ->
  gate_denies w (identity w req) (UserId p) ->
  let r := handle_data w newResponse req s in
  response r.1 =
    error_response w newResponse
      (catalogEntry 403 "data_cant_view" "user is not authorized to view data")
      (NewV4 w (uuids s)) /\
  status (response r.1) = Some StatusForbidden /\
  body (response r.1) =
    json_Marshal_detailedError w
      {| Status := 403; Id := NewV4 w (uuids s); Code := "data_cant_view";
         Message := "user is not authorized to view data"; InternalMessage := "" |} /\
  cursor r.1 = None /\
  (forall t err,
     identity w req = Some t -> IsServer t = false -> UserID t <> UserId p ->
     UserInGroup w (UserID t) (UserId p) = Err err ->
     LogGroupLookupError err ∈ logs r.2).
Proof.
  intros Hg Hp Hdeny r. subst r.
  apply gate_allows_false in Hdeny.
  destruct (denied_run newResponse req s p Hp Hdeny)
    as (gcs & gls & (_ & _ & Hlog) & ->).
  simpl. rewrite Hg. repeat split; try done.
  intros t err Ht Hs Hne Herr. rewrite (Hlog t err Ht Hs Hne Herr).
  set_solver.
Qed.


(** *** The order of the stages *)

Lemma ordered_same (l : list Call) k :
  Forall (fun c => stage c = k) l -> in_pipeline_order l.
Proof.
  induction 1 as [|c l Hc Hl IH]; [constructor|].
  constructor; [done|]. eapply Forall_impl; [exact Hl|].
  intros c' Hc'. simpl in Hc'. unfold stage_order. lia.
Qed.

Lemma ordered_app (l1 l2 : list Call) k :
  Forall (fun c => (stage c <= k)%nat) l1 ->
  Forall (fun c => (k <= stage c)%nat) l2 ->
  in_pipeline_order l1 -> in_pipeline_order l2 ->
  in_pipeline_order (l1 ++ l2).
Proof.
  intros H1 H2 S1 S2. apply StronglySorted_app_2; [|done|done].
  intros x1 x2 Hx1 Hx2. rewrite Forall_forall in H1, H2.
  specialize (H1 x1 Hx1). specialize (H2 x2 Hx2). unfold stage_order. lia.
Qed.

Lemma lookups_stage (ecs : list Call) u :
  sublist ecs (lookups_in_order u) -> Forall (fun c => stage c = 3%nat) ecs.
Proof.
  intros Hs. apply sublist_subseteq in Hs. apply Forall_forall. intros c Hc.
  specialize (Hs c Hc). unfold lookups_in_order in Hs.
  rewrite !elem_of_cons, elem_of_nil in Hs.
  by destruct Hs as [->|[->|[->|[->|[]]]]].
Qed.

Lemma stream_calls_ordered p n :
  in_pipeline_order (CGetDeviceData p :: replicate n CNext ++ [CClose]) /\
  Forall (fun c => (4 <= stage c)%nat)
    (CGetDeviceData p :: replicate n CNext ++ [CClose]).
Proof.
  assert (Forall (fun c => stage c = 5%nat) (replicate n CNext)) as Hn.
  { apply Forall_forall. by intros c [-> _]%elem_of_replicate. }
  assert (Forall (fun c => (4 <= stage c)%nat) (replicate n CNext ++ [CClose]))
    as Hge.
  { apply Forall_app. split.
    - eapply Forall_impl; [exact Hn|]. simpl. intros; lia.
    - repeat constructor; simpl; lia. }
  split; [|constructor; [simpl; lia|done]].
  constructor.
  - apply (ordered_app _ [_] 5).
    + eapply Forall_impl; [exact Hn|]. simpl. intros; lia.
    + repeat constructor; simpl; lia.
    + by eapply ordered_same.
    + by repeat constructor.
  - eapply Forall_impl; [exact Hge|]. intros c Hc. simpl in Hc.
    unfold stage_order. simpl. lia.
Qed.

Lemma pipeline_ordered (auth gcs ecs tail : list Call) :
  Forall (fun c => stage c = 1%nat) auth ->
  Forall (fun c => stage c = 2%nat) gcs ->
  Forall (fun c => stage c = 3%nat) ecs ->
  Forall (fun c => (4 <= stage c)%nat) tail ->
  in_pipeline_order tail ->
  in_pipeline_order (CGetParams :: auth ++ gcs ++ ecs ++ tail).
Proof.
  intros Ha Hg He Ht St.
  assert (forall k (l : list Call) (P : nat -> Prop),
            Forall (fun c => stage c = k) l -> P k -> Forall (fun c => P (stage c)) l)
    as lift_stage.
  { intros k l P Hl Hk. eapply Forall_impl; [exact Hl|].
    simpl. by intros c ->. }
  assert (forall (l : list Call) (j k : nat),
            (j <= k)%nat -> Forall (fun c => (k <= stage c)%nat) l ->
            Forall (fun c => (j <= stage c)%nat) l) as weaken.
  { intros l j k Hjk Hl. eapply Forall_impl; [exact Hl|]. simpl. intros; lia. }
  constructor.
  - apply (ordered_app _ _ 1);
      [by apply (lift_stage 1%nat _ (fun n => n <= 1)%nat)| |by eapply ordered_same|].
    + rewrite !Forall_app. split_and!.
      * by apply (lift_stage 2%nat _ (fun n => 1 <= n)%nat); [|lia].
      * by apply (lift_stage 3%nat _ (fun n => 1 <= n)%nat); [|lia].
      * by apply (weaken _ 1%nat 4%nat); [lia|].
    + apply (ordered_app _ _ 2);
        [by apply (lift_stage 2%nat _ (fun n => n <= 2)%nat)|
        |by eapply ordered_same|].
      * rewrite !Forall_app. split_and!.
        -- by apply (lift_stage 3%nat _ (fun n => 2 <= n)%nat); [|lia].
        -- by apply (weaken _ 2%nat 4%nat); [lia|].
      * apply (ordered_app _ _ 3);
          [by apply (lift_stage 3%nat _ (fun n => n <= 3)%nat)|
          |by eapply ordered_same|done].
        by apply (weaken _ 3%nat 4%nat); [lia|].
  - apply Forall_forall. intros c _. unfold stage_order. simpl. lia.
Qed.

(** C3, as the code has it.  The calls of a run are made in the order:
    parameter reading (stage 0), authenticator (1), gate (2), enrichment
    lookups (3), query (4), serializer (5), release of the cursor (6); the
    parameter reading is always the first call.  A request whose parameters
    do not parse is answered with the invalid_parameters envelope after
    that one call, whatever its credentials; a request whose parameters
    parse and that the gate refuses is answered with the denial envelope,
    and nothing past the gate is called. *)
Theorem C3_parameters_then_authenticator_then_gate res req s :
  let r := handle_data w res req s in
  exists cs,
    calls r.2 = calls s ++ cs /\
    in_pipeline_order cs /\
    head cs = Some CGetParams /\
    (forall err,
       GetParams w (URL_Query req) = Err err ->
       cs = [CGetParams] /\
       response r.1 =
         error_response w res (error_invalid_parameters (globals s))
           (NewV4 w (uuids s))) /\
    (forall p,
       GetParams w (URL_Query req) = Ok p ->
       gate_denies w (identity w req) (UserId p) ->
       Forall (fun c => (stage c <= 2)%nat) cs /\
       response r.1 =
         error_response w res (error_no_view_permisson (globals s))
           (NewV4 w (uuids s))).
Proof.
  intros r. subst r.
  destruct (handle_data w res req s) as [out s'] eqn:E.
  apply handle_data_run in E.
  pose proof (auth_calls_stage w req) as Hauth.
  inversion E as [err' HG
                 |p0 gcs gls HG [Hgs _] Hgate
                 |p0 gcs gls pre c entry HG [Hgs _] Hgate [Hsub _]
                 |p0 gcs gls ecs p items ? ? HG [Hgs _] Hgate [Hsub _] ? ? ? ? ? ? ? ? Hcalls];
    subst; simpl.
  - exists [CGetParams]. split_and!; try done.
    + by repeat constructor.
    + intros p. congruence.
  - exists (CGetParams :: auth_calls w req ++ gcs). split_and!; try done.
    + rewrite <- (app_nil_r gcs), <- (app_nil_r (gcs ++ [])).
      rewrite <- !app_assoc.
      apply pipeline_ordered; try done; by constructor.
    + intros err. congruence.
    + intros p Hp _. split; [|done]. constructor; [simpl; lia|].
      apply Forall_app. split.
      * eapply Forall_impl; [exact Hauth|]. simpl. intros; lia.
      * eapply Forall_impl; [exact Hgs|]. simpl. intros; lia.
  - exists (CGetParams :: auth_calls w req ++ gcs ++ pre ++ [c]).
    split_and!; try done.
    + rewrite <- (app_nil_r (pre ++ [c])).
      apply pipeline_ordered; try done; [|by constructor..].
      by eapply lookups_stage.
    + intros err. congruence.
    + intros p Hp Hdeny. apply gate_allows_false in Hdeny.
      assert (p0 = p) as -> by congruence. congruence.
  - exists (CGetParams :: auth_calls w req ++ gcs ++ ecs ++
            CGetDeviceData p ::
            replicate (S (length (produced (GetDeviceData w p)))) CNext ++ [CClose]).
    split_and!; try done.
    + apply pipeline_ordered; try done; [by eapply lookups_stage|..];
        apply stream_calls_ordered.
    + intros err. congruence.
    + intros p' Hp Hdeny. apply gate_allows_false in Hdeny.
      assert (p0 = p') as -> by congruence. congruence.
Qed.

(** *** The calls of a run, by stage *)

Lemma elem_stage (l : list Call) k c :
  Forall (fun c => stage c = k) l -> c ∈ l -> stage c = k.
Proof. rewrite Forall_forall. auto. Qed.

Lemma filter_stage_nil (P : Call -> Prop) `{!forall c, Decision (P c)} l k :
  Forall (fun c => stage c = k) l -> (forall c, P c -> stage c <> k) ->
  filter P l = [].
Proof.
  intros Hl HP. induction Hl as [|c l Hc Hl IH]; [done|].
  rewrite filter_cons_False; [done|]. intros HPc. by apply (HP c).
Qed.

Lemma filter_stage_all (P : Call -> Prop) `{!forall c, Decision (P c)} l k :
  Forall (fun c => stage c = k) l -> (forall c, stage c = k -> P c) ->
  filter P l = l.
Proof.
  intros Hl HP. induction Hl as [|c l Hc Hl IH]; [done|].
  rewrite filter_cons_True; [by rewrite IH|]. by apply HP.
Qed.

(** The calls of any run: the parameter reading, the calls of the
    authenticator, of the gate, the lookups, and then either nothing (no
    cursor was acquired) or the query, the reads of the cursor and its one
    release. *)
Lemma run_calls res req s out s' :
  HandlerRun w res req s out s' ->
  exists auth gcs ecs tail u,
    calls s' = calls s ++ CGetParams :: auth ++ gcs ++ ecs ++ tail /\
    Forall (fun c => stage c = 1%nat) auth /\
    Forall (fun c => stage c = 2%nat) gcs /\
    sublist ecs (lookups_in_order u) /\
    ((tail = [] /\ cursor out = None /\ completion out = Returns) \/
     (exists p items,
        tail = CGetDeviceData p ::
               replicate (S (length (produced items))) CNext ++ [CClose] /\
        cursor out = Some {| pending := unread items; closed := 1 |})).
Proof.
  pose proof (auth_calls_stage w req) as Hauth.
  intros E.
  inversion E as [err' HG
                 |p0 gcs gls HG [Hgs _] Hgate
                 |p0 gcs gls pre c entry HG [Hgs _] Hgate [Hsub _]
                 |p0 gcs gls ecs p items ? ? HG [Hgs _] Hgate [Hsub _] ? ? ? ? ? ? ? ? Hcalls];
    subst; simpl.
  - exists [], [], [], [], "".
    split_and!; try done; try (by constructor); try apply sublist_nil_l;
      try by left.
  - exists (auth_calls w req), gcs, [], [], "". rewrite !app_nil_r.
    split_and!; try done; try apply sublist_nil_l; try by left.
  - exists (auth_calls w req), gcs, (pre ++ [c]), [], (UserId p0).
    rewrite !app_nil_r. split_and!; try done; try by left.
  - exists (auth_calls w req), gcs, ecs,
      (CGetDeviceData p ::
       replicate (S (length (produced (GetDeviceData w p)))) CNext ++ [CClose]),
      (UserId p0).
    split_and!; try done. right. by exists p, (GetDeviceData w p).
Qed.

Lemma filter_early (P : Call -> Prop) `{!forall c, Decision (P c)}
    (auth gcs ecs tail : list Call) u :
  Forall (fun c => stage c = 1%nat) auth ->
  Forall (fun c => stage c = 2%nat) gcs ->
  sublist ecs (lookups_in_order u) ->
  (forall c, P c -> (4 <= stage c)%nat) ->
  filter P (CGetParams :: auth ++ gcs ++ ecs ++ tail) = filter P tail.
Proof.
  intros Ha Hg He%lookups_stage HP.
  rewrite filter_cons_False; [|intros H%HP; simpl in H; lia].
  rewrite !filter_app.
  rewrite (filter_stage_nil P auth 1), (filter_stage_nil P gcs 2),
    (filter_stage_nil P ecs 3); try done; intros c H%HP; lia.
Qed.

Lemma early_calls (auth gcs ecs : list Call) u c :
  Forall (fun c => stage c = 1%nat) auth ->
  Forall (fun c => stage c = 2%nat) gcs ->
  sublist ecs (lookups_in_order u) ->
  c ∈ CGetParams :: auth ++ gcs ++ ecs -> (stage c <= 3)%nat.
Proof.
  intros Ha Hg He%lookups_stage.
  rewrite elem_of_cons, !elem_of_app. intros [->|[H|[H|H]]].
  - simpl; lia.
  - rewrite (elem_stage _ _ _ Ha H); lia.
  - rewrite (elem_stage _ _ _ Hg H); lia.
  - rewrite (elem_stage _ _ _ He H); lia.
Qed.

Lemma filter_stream (P : Call -> Prop) `{!forall c, Decision (P c)} p n :
  (forall c, P c -> stage c <> 5%nat) ->
  filter P (CGetDeviceData p :: replicate n CNext ++ [CClose])
  = filter P [CGetDeviceData p] ++ filter P [CClose].
Proof.
  intros HP. change (CGetDeviceData p :: replicate n CNext ++ [CClose])
    with ([CGetDeviceData p] ++ replicate n CNext ++ [CClose]).
  rewrite !filter_app. rewrite (filter_stage_nil P (replicate n CNext) 5); [done| |done].
  apply Forall_forall. by intros c [-> _]%elem_of_replicate.
Qed.

(** C8. Whenever the handler acquires a cursor (it made the query), the
    cursor has been closed exactly once when the handler is left, whether
    the serializer returned (with or without documents it could not
    marshal) or panicked; the release is the last call of the run.  When no
    cursor is acquired nothing is closed. *)
Theorem C8_cursor_closed_exactly_once res req s :
  let r := handle_data w res req s in
  exists cs,
    calls r.2 = calls s ++ cs /\
    (completion r.1 = Panicked -> is_Some (cursor r.1)) /\
    match cursor r.1 with
    | Some it =>
        (closed it = 1%nat /\
         filter (fun c => is_Close c = true) cs = [CClose] /\
         last cs = Some CClose /\
         length (filter (fun c => is_GetDeviceData c = true) cs) = 1%nat)
    | None =>
        ((CClose ∉ cs) /\ (forall p, CGetDeviceData p ∉ cs))
    end.
Proof.
  intros r. subst r.
  destruct (handle_data w res req s) as [out s'] eqn:E.
  apply handle_data_run, run_calls in E.
  destruct E as (auth & gcs & ecs & tail & u & Hcalls & Ha & Hg & He &
                 [(-> & Hcur & Hcomp)|(p & items & -> & Hcur)]);
    simpl; rewrite Hcur.
  - eexists. split; [exact Hcalls|]. rewrite app_nil_r.
    split; [by rewrite Hcomp|]. split.
    + intros H. apply (early_calls _ _ _ _ _ Ha Hg He) in H. simpl in H. lia.
    + intros p H. apply (early_calls _ _ _ _ _ Ha Hg He) in H. simpl in H. lia.
  - eexists. split; [exact Hcalls|]. split; [done|]. split_and!.
    + done.
    + rewrite (filter_early _ _ _ _ _ u); try done.
      * by rewrite filter_stream; [|by intros [] ?].
      * intros [] ?; simpl; (done || lia).
    + rewrite !app_comm_cons, !app_assoc. apply last_snoc.
    + rewrite (filter_early _ _ _ _ _ u); try done.
      * by rewrite filter_stream; [|by intros [] ?].
      * intros [] ?; simpl; (done || lia).
Qed.







(** *** The serializer *)

Lemma cursor_of_produced (docs : list (gmap string Value)) :
  produced (cursor_of docs) = docs /\
  breaks (cursor_of docs) = false /\
  unread (cursor_of docs) = [].
Proof.
  induction docs as [|d docs (IH1 & IH2 & IH3)]; [done|].
  simpl. by rewrite IH1, IH2, IH3.
Qed.

Lemma written_valid (V : string -> Prop) (docs : list (gmap string Value)) :
  (forall d bytes, json_Marshal_results w d = Ok bytes -> V bytes) ->
  Forall V (written w docs).
Proof.
  intros HV. induction docs as [|d docs IH]; [constructor|].
  unfold written. simpl. fold (written w docs).
  destruct (0 <? size d)%nat; [|done].
  destruct (json_Marshal_results w d) as [bytes|err] eqn:E; [|done].
  constructor; [by apply (HV d)|done].
Qed.

Lemma elements_text (V : string -> Prop) rest : forall e,
  V e -> Forall V rest -> JsonElements V (e :: rest) (e ++ array_tail rest)%string.
Proof.
  induction rest as [|e2 rest IH]; intros e He Hrest.
  - simpl. rewrite string_app_nil_r. by constructor.
  - inversion Hrest as [|? ? He2 Hrest']; subst.
    apply (elements_more V e (e2 :: rest) (e2 ++ array_tail rest) "" newline);
      [done|done|done|]. by apply IH.
Qed.

Lemma array_body_is_array (V : string -> Prop) elems :
  Forall V elems -> JsonArray V elems (array_body elems).
Proof.
  destruct elems as [|e rest]; intros H.
  - apply (array_empty V ""). done.
  - inversion H as [|? ? He Hrest]; subst. unfold array_body.
    rewrite <- (string_app_assoc e (array_tail rest)).
    apply (array_elements V (e :: rest) _ newline newline); [done|done|].
    by apply elements_text.
Qed.

Lemma stream_response_all (docs : list (gmap string Value)) :
  let res := stream_response w newResponse (cursor_of docs) in
  body res = array_body (written w docs) /\
  status res = Some StatusOK /\
  headers res = [("Content-Type", "application/json")].
Proof.
  unfold stream_response.
  destruct (cursor_of_produced docs) as (-> & -> & _).
  set (elems := written w docs).
  set (opened := write_elements _ 0 elems).
  assert (status opened = Some StatusOK) as Hst
    by (by apply write_elements_status).
  assert (headers opened = [("Content-Type", "application/json")]) as Hh
    by (unfold opened; by rewrite write_elements_headers).
  assert (body opened =
          ("[" ++ match elems with
                  | [] => ""
                  | e :: rest => newline ++ e ++ array_tail rest
                  end)%string) as Hb.
  { unfold opened. rewrite write_elements_body. by destruct elems. }
  clearbody opened. cbv zeta. split_and!.
  - rewrite Write_body. destruct elems as [|e rest]; cbn -[Write].
    + by rewrite Hb.
    + rewrite Write_body, Hb. by rewrite !string_app_assoc.
  - rewrite Write_status. destruct (0 <? length elems)%nat;
      by rewrite ?Write_status, Hst.
  - rewrite Write_headers. destruct (0 <? length elems)%nat;
      by rewrite ?Write_headers, Hh.
Qed.

(** C7. For every sequence of documents the cursor produces, the
    serializer returns having written a JSON array whose elements are, in
    order, the texts of the non-empty documents that marshal: a document
    that does not marshal is logged and left out, the separators of the
    others stay in place, the whole cursor is read; the status is 200, and
    with nothing to write the body is exactly the empty array. *)
Theorem C7_stream_is_a_json_array (V : string -> Prop)
    (docs : list (gmap string Value)) n start s :
  (forall d bytes, json_Marshal_results w d = Ok bytes -> V bytes) ->
  let it := {| pending := cursor_of docs; closed := n |} in
  let r := processResults w newResponse it start s in
  let elems := written w docs in
  r.1.1.1 = Returns /\
  body r.1.1.2 = array_body elems /\
  JsonArray V elems (body r.1.1.2) /\
  status r.1.1.2 = Some StatusOK /\
  headers r.1.1.2 = [("Content-Type", "application/json")] /\
  (elems = [] -> body r.1.1.2 = "[]") /\
  pending r.1.2 = [] /\
  logs r.2 =
    logs s ++ LogProcessingStarted (Now w (ticks s) - start) ::
    marshal_failures w docs ++
    [LogProcessingFinished (Now w (S (ticks s)) - start) (length elems)].
Proof.
  intros HV it r elems. subst it r elems.
  rewrite processResults_run. simpl.
  destruct (stream_response_all docs) as (Hb & Hst & Hh).
  destruct (cursor_of_produced docs) as (Hp & Hbr & Hu).
  rewrite Hp, Hbr, Hu, Hb. split_and!; try done.
  - apply array_body_is_array. by apply written_valid.
  - by intros ->.
Qed.

(** *** Runs of the server *)

Lemma failure_ids_app ls1 ls2 :
  failure_ids (ls1 ++ ls2) = failure_ids ls1 ++ failure_ids ls2.
Proof. apply omap_app. Qed.

Lemma marshal_failures_ids (docs : list (gmap string Value)) :
  failure_ids (marshal_failures w docs) = [].
Proof.
  induction docs as [|d docs IH]; [done|].
  unfold marshal_failures. simpl. fold (marshal_failures w docs).
  destruct (0 <? size d)%nat; [|done].
  by destruct (json_Marshal_results w d).
Qed.

Lemma lookup_error_id c entry :
  lookup_error w c = Some entry -> failure_id entry = None.
Proof.
  destruct c; simpl; try done.
  - destruct (HasMedtronicDirectData w user); by intros [= <-].
  - destruct (GetDexcomDataSource w user); by intros [= <-].
  - destruct (HasMedtronicLoopDataAfter w user date); by intros [= <-].
  - destruct (GetLoopableMedtronicDirectUploadIdsAfter w user date);
      by intros [= <-].
Qed.

Lemma stream_response_status items :
  status (stream_response w newResponse items) = Some StatusOK.
Proof.
  unfold stream_response.
  set (opened := write_elements _ 0 _).
  assert (status opened = Some StatusOK) as Hst
    by (by apply write_elements_status).
  destruct (breaks items); [done|].
  rewrite Write_status.
  destruct (0 <? _)%nat; by rewrite ?Write_status, Hst.
Qed.

Lemma handle_status_run s :
  let r := handle_status w newResponse s in
  globals r.2 = globals s /\
  ((r.1 = Write ("OK" ++ newline)%string newResponse /\
    uuids r.2 = uuids s /\ logs r.2 = logs s) \/
   (exists err,
      Ping w = Some err /\
      r.1 = error_response w newResponse
              (setInternalMessage (error_status_check (globals s)) err)
              (NewV4 w (uuids s)) /\
      uuids r.2 = S (uuids s) /\
      logs r.2 = logs s ++
        [LogFailure (NewV4 w (uuids s)) (Code (error_status_check (globals s)))
           (Now w (S (ticks s)) - Now w (ticks s))
           (Message (error_status_check (globals s))) err])).
Proof.
  unfold handle_status. unfold bind at 1, time_Now at 1. cbv beta iota zeta.
  unfold bind at 1. rewrite called_run.
  destruct (Ping w) as [err|].
  - unfold bind, global. cbv beta iota. rewrite jsonError_run. simpl.
    split; [done|]. right. by exists err.
  - unfold ret. simpl. split; [done|]. by left.
Qed.

(** One request: the catalog is left as it was; the request is answered
    with status 200 and logs no failure, or it is answered with the
    envelope of a catalog entry under the next identifier drawn, which is
    the one failure it logs. *)
Lemma serve_run i s :
  let r := serve w i s in
  globals r.2 = globals s /\
  exists ls, logs r.2 = logs s ++ ls /\
    ((answered w (globals s) r.1 None /\
      uuids r.2 = uuids s /\ failure_ids ls = []) \/
     (answered w (globals s) r.1 (Some (NewV4 w (uuids s))) /\
      uuids r.2 = S (uuids s) /\ failure_ids ls = [NewV4 w (uuids s)])).
Proof.
  destruct i as [|req]; simpl.
  - destruct (handle_status_run s) as (Hg & [(-> & Hu & Hl)|(err & _ & -> & Hu & Hl)]).
    + split; [done|]. exists []. rewrite app_nil_r. split; [done|]. by left.
    + split; [done|]. eexists. split; [exact Hl|]. right. split_and!; try done.
      exists (error_status_check (globals s)). split; [|done].
      unfold catalog. set_solver.
  - unfold bind, ret.
    destruct (handle_data w newResponse req s) as [out s'] eqn:E. simpl.
    apply handle_data_run in E.
    inversion E as [err' HG
                   |p0 gcs gls HG (_ & Hnf & _) Hgate
                   |p0 gcs gls pre c entry HG (_ & Hnf & _) Hgate _ _ Herr
                   |p0 gcs gls ecs p items ? ? HG (_ & Hnf & _) Hgate _ _ _ ?
                      Hres ? ? Hglob Huu ? Hlogs];
      subst; simpl.
    + split; [done|]. eexists. split; [reflexivity|]. right. split_and!; try done.
      exists (error_invalid_parameters (globals s)). split; [|done].
      unfold catalog. set_solver.
    + split; [done|]. eexists. split; [reflexivity|]. right. split_and!; try done.
      * exists (error_no_view_permisson (globals s)). split; [|done].
        unfold catalog. set_solver.
      * by rewrite failure_ids_app, Hnf.
    + split; [done|]. eexists. split; [reflexivity|]. right. split_and!; try done.
      * exists (error_running_query (globals s)). split; [|done].
        unfold catalog. set_solver.
      * rewrite !failure_ids_app, Hnf. unfold failure_ids. simpl.
        by rewrite (lookup_error_id _ _ Herr).
    + split; [done|]. eexists. split; [exact Hlogs|]. left. split_and!; try done.
      * rewrite Hres. apply stream_response_status.
      * rewrite failure_ids_app, Hnf. simpl.
        change (failure_ids (?x :: ?l)) with (failure_ids ([x] ++ l)).
        rewrite !failure_ids_app, marshal_failures_ids.
        by destruct (breaks _).
Qed.

Lemma serve_all_run incoming : forall s,
  let r := serve_all w incoming s in
  globals r.2 = globals s /\
  exists oids,
    Forall2 (answered w (globals s)) r.1 oids /\
    failure_ids (logs r.2) = failure_ids (logs s) ++ omap id oids /\
    omap id oids = NewV4 w <$> seq (uuids s) (length (omap id oids)) /\
    uuids r.2 = (uuids s + length (omap id oids))%nat.
Proof.
  induction incoming as [|i rest IH]; intros s.
  - simpl. split; [done|]. exists []. simpl. rewrite app_nil_r.
    split_and!; (done || lia || constructor).
  - pose proof (serve_run i s) as Hi. cbv zeta in Hi.
    destruct (serve w i s) as [resp s1] eqn:E1. simpl in Hi.
    destruct Hi as (Hg1 & ls & Hl1 & Hi).
    specialize (IH s1). cbv zeta in IH.
    destruct (serve_all w rest s1) as [resps s2] eqn:E2. simpl in IH.
    destruct IH as (Hg2 & oids & Hans & Hids & Hseq & Huu).
    assert (serve_all w (i :: rest) s = (resp :: resps, s2)) as ->
      by (simpl; unfold bind, ret; by rewrite E1, E2).
    cbv zeta. simpl. split; [congruence|].
    rewrite Hg1 in Hans.
    destruct Hi as [(Ha & Hu1 & Hf)|(Ha & Hu1 & Hf)].
    + exists (None :: oids). simpl. split_and!.
      * by constructor.
      * by rewrite Hids, Hl1, failure_ids_app, Hf, app_nil_r.
      * by rewrite Hseq at 1; rewrite Hu1.
      * by rewrite Huu, Hu1.
    + exists (Some (NewV4 w (uuids s)) :: oids). simpl. split_and!.
      * by constructor.
      * by rewrite Hids, Hl1, failure_ids_app, Hf, <- app_assoc.
      * f_equal. by rewrite Hseq at 1; rewrite Hu1.
      * by rewrite Huu, Hu1, Nat.add_succ_r.
Qed.

(** C9. jsonError draws a new identifier, puts it in the Id field of the
    copy it serializes (whatever Id the envelope carried), and the response
    does not depend on the internal message: that one goes to the log line
    only, with the identifier, the code, the elapsed time and the message.
    Over any run of the server, every failure is answered with the envelope
    of a catalog entry under an identifier of its own: the identifiers of
    the failures are the successive draws of the generator, each used once,
    and they are the identifiers of the failure lines of the log; they are
    pairwise distinct whenever the draws of the generator are. *)
Theorem C9_fresh_identifier_and_hidden_cause incoming s :
  (forall res err startedAt s0,
     let r := jsonError w res err startedAt s0 in
     let id := NewV4 w (uuids s0) in
     r.1 = error_response w res err id /\
     body r.1 = (body res ++ json_Marshal_detailedError w (set_Id id err))%string /\
     (forall internal old,
        (jsonError w res (setInternalMessage (set_Id old err) internal)
           startedAt s0).1 = r.1) /\
     uuids r.2 = S (uuids s0) /\
     logs r.2 = logs s0 ++
       [LogFailure id (Code err) (Now w (ticks s0) - startedAt)
          (Message err) (InternalMessage err)]) /\
  let r := serve_all w incoming s in
  exists oids,
    Forall2 (answered w (globals s)) r.1 oids /\
    failure_ids (logs r.2) = failure_ids (logs s) ++ omap id oids /\
    omap id oids = NewV4 w <$> seq (uuids s) (length (omap id oids)) /\
    ((forall i j, NewV4 w i = NewV4 w j -> i = j) -> NoDup (omap id oids)).
Proof.
  split.
  - intros res err startedAt s0 r id0. subst r id0.
    rewrite jsonError_run. cbn [fst snd].
    split_and!; try done;
      try (unfold error_response; by rewrite Write_body, WriteHeader_body);
      try (intros internal old; by rewrite jsonError_run).
  - intros r. subst r.
    destruct (serve_all_run incoming s) as (_ & oids & Hans & Hids & Hseq & _).
    exists oids. split_and!; try done.
    intros Hinj. rewrite Hseq. apply NoDup_fmap_2; [|apply NoDup_seq].
    intros i j. apply Hinj.
Qed.

(** C10. No run of the server changes the package-level catalog: jsonError
    and setInternalMessage work on copies.  Hence every failure of a run is
    answered with the Status, Code and Message of an entry of the catalog
    as declared, whatever was served before. *)
Theorem C10_catalog_is_never_mutated incoming s :
  let r := serve_all w incoming s in
  globals r.2 = globals s /\
  (forall res err startedAt s0,
     globals (jsonError w res err startedAt s0).2 = globals s0) /\
  (forall d internal,
     Status (setInternalMessage d internal) = Status d /\
     Code (setInternalMessage d internal) = Code d /\
     Message (setInternalMessage d internal) = Message d) /\
  (globals s = package_vars ->
   Forall (fun resp =>
             status resp = Some StatusOK \/
             exists e id,
               e ∈ catalog package_vars /\
               resp = error_response w newResponse e id /\
               status resp = Some (Status e))
          r.1).
Proof.
  intros r. subst r.
  destruct (serve_all_run incoming s) as (Hg & oids & Hans & _).
  split_and!; try done.
  intros Hs. rewrite Hs in Hans.
  induction Hans as [|resp oid resps oids Hr Hrs IH]; [constructor|].
    constructor; [|done].
    destruct oid as [id0|]; simpl in Hr; [|by left].
    destruct Hr as (e & He & ->). right. by exists e, id0.
Qed.

End Claims.

(** ** The properties on the sample deployment *)

(** The generator of the sample deployment never repeats itself. *)
Lemma sample_NewV4_inj (i j : nat) :
  NewV4 Sample.world i = NewV4 Sample.world j -> i = j.
Proof.
  intros H. simpl in H. apply (inj (String.app "uuid-")) in H.
  by apply (inj pretty) in H.
Qed.

Lemma sample_marshal_is_text (d : gmap string nat) bytes :
  json_Marshal_results Sample.world d = Ok bytes -> Sample.is_text bytes.
Proof.
  simpl. unfold Sample.marshal. destruct (d !! "value") as [n|]; [|done].
  intros [= <-]. by exists n.
Qed.

(** A asks for her own data: two of her four documents are streamed, the
    cursor is closed once. *)
Example own_data_is_streamed :
  let r := handle_data Sample.world newResponse Sample.own_data initial_state in
  body (response r.1) = array_body [Sample.text 1; Sample.text 2] /\
  status (response r.1) = Some 200 /\
  cursor r.1 = Some {| pending := []; closed := 1 |} /\
  completion r.1 = Returns /\
  logs r.2 = [ LogProcessingStarted 1000;
               LogMarshalFailed "json: unsupported value: NaN";
               LogProcessingFinished 2000 2 ].
Proof. vm_compute. by repeat split. Qed.

(** A asks for the data of B, whose cursor breaks after one document: the
    handler panics with the array left open, and the cursor is closed
    once. *)
Example broken_cursor_is_closed :
  let r := handle_data Sample.world newResponse Sample.shared_data initial_state in
  completion r.1 = Panicked /\
  body (response r.1) = ("[" ++ newline ++ Sample.text 3)%string /\
  cursor r.1 =
    Some {| pending := [Produced {[ "value" := 4%nat ]}]; closed := 1 |} /\
  last (calls r.2) = Some CClose.
Proof. vm_compute. by repeat split. Qed.

(** C1, on A asking for the data of C while the sharing service is
    unreachable. *)
Lemma C1_witness :
  globals initial_state = package_vars /\
  GetParams Sample.world (URL_Query Sample.other_data)
    = Ok (set_Dates None None (Sample.params_of (URL_Query Sample.other_data))) /\
  gate_denies Sample.world (identity Sample.world Sample.other_data) "C" /\
  status (response
            (handle_data Sample.world newResponse Sample.other_data initial_state).1)
    = Some StatusForbidden /\
  LogGroupLookupError "gatekeeper unreachable"
    ∈ logs (handle_data Sample.world newResponse Sample.other_data initial_state).2.
Proof.
  assert (gate_denies Sample.world (identity Sample.world Sample.other_data) "C")
    as Hdeny.
  { right. exists Sample.alice. split; [by vm_compute|].
    split; [done|]. split; [done|]. left. by exists "gatekeeper unreachable". }
  pose proof (C1_denial_is_uniform Sample.world Sample.other_data initial_state
                (set_Dates None None (Sample.params_of (URL_Query Sample.other_data)))
                eq_refl eq_refl Hdeny) as (_ & Hst & _ & _ & Hlog).
  split; [reflexivity|]. split; [reflexivity|]. split; [exact Hdeny|].
  split; [exact Hst|].
  apply (Hlog Sample.alice "gatekeeper unreachable"); by vm_compute.
Defined.

(** C1 as the specification words it, for every request: it fails on a
    request whose parameters do not parse.  The anonymous request with a
    startDate that is not a date has no resolved identity, so the gate
    would refuse it for any target; it is answered with the
    invalid_parameters envelope under status 500, not with the 403 envelope
    whose code is data_cant_view. *)
Lemma C1_counterexample :
  globals initial_state = package_vars /\
  identity Sample.world Sample.anonymous_bad_date = None /\
  (forall target,
     gate_denies Sample.world (identity Sample.world Sample.anonymous_bad_date)
       target) /\
  status (response
            (handle_data Sample.world newResponse Sample.anonymous_bad_date
               initial_state).1)
    = Some StatusInternalServerError /\
  response
    (handle_data Sample.world newResponse Sample.anonymous_bad_date initial_state).1
  = error_response Sample.world newResponse
      (catalogEntry 500 "invalid_parameters" "one or more parameters are invalid")
      (NewV4 Sample.world (uuids initial_state)) /\
  ~ (forall req target,
       gate_denies Sample.world (identity Sample.world req) target ->
       response (handle_data Sample.world newResponse req initial_state).1
       = error_response Sample.world newResponse
           (catalogEntry 403 "data_cant_view" "user is not authorized to view data")
           (NewV4 Sample.world (uuids initial_state))).
Proof.
  assert (identity Sample.world Sample.anonymous_bad_date = None) as Hid
    by (by vm_compute).
  split; [reflexivity|]. split; [exact Hid|].
  split; [intros target; left; exact Hid|].
  split; [by vm_compute|]. split; [by vm_compute|].
  intros Hall.
  specialize (Hall Sample.anonymous_bad_date "A" (or_introl Hid)).
  vm_compute in Hall. discriminate Hall.
Qed.

(** C3 as the specification words it fails: an anonymous request, which
    the gate refuses whatever the target, is answered with the
    invalid_parameters envelope under status 500, not with the denial
    envelope, when its startDate does not parse; the parameter reading is
    the only call made. *)
Lemma C3_counterexample :
  identity Sample.world Sample.anonymous_bad_date = None /\
  gate_denies Sample.world (identity Sample.world Sample.anonymous_bad_date) "A" /\
  fails_to_parse Sample.world (URL_Query Sample.anonymous_bad_date) "startDate" /\
  response
    (handle_data Sample.world newResponse Sample.anonymous_bad_date initial_state).1
  <> error_response Sample.world newResponse
       (catalogEntry 403 "data_cant_view" "user is not authorized to view data")
       "uuid-0" /\
  response
    (handle_data Sample.world newResponse Sample.anonymous_bad_date initial_state).1
  = error_response Sample.world newResponse
      (catalogEntry 500 "invalid_parameters" "one or more parameters are invalid")
      "uuid-0" /\
  calls (handle_data Sample.world newResponse Sample.anonymous_bad_date initial_state).2
  = [CGetParams].
Proof.
  split; [by vm_compute|]. split; [by left; vm_compute|].
  split; [split; [by eexists; vm_compute|by vm_compute]|].
  split; [vm_compute; discriminate|]. split; by vm_compute.
Qed.


(** C6, on the anonymous request whose startDate is not a date. *)
Lemma C6_witness :
  globals initial_state = package_vars /\
  fails_to_parse Sample.world (URL_Query Sample.anonymous_bad_date) "startDate" /\
  status (response
            (handle_data Sample.world newResponse Sample.anonymous_bad_date
               initial_state).1)
    = Some StatusInternalServerError /\
  calls (handle_data Sample.world newResponse Sample.anonymous_bad_date
           initial_state).2 = [CGetParams].
Proof.
  assert (fails_to_parse Sample.world (URL_Query Sample.anonymous_bad_date)
            "startDate") as Hbad.
  { split; [by eexists; vm_compute|by vm_compute]. }
  pose proof (C6_malformed_date_is_reported_as_500 Sample.world
                Sample.anonymous_bad_date initial_state eq_refl (or_introl Hbad))
    as (_ & Hst & _ & _ & Hcalls).
  split; [reflexivity|]. split; [exact Hbad|]. split; [exact Hst|exact Hcalls].
Defined.

(** C7, on the four documents of A. *)
Lemma C7_witness :
  (forall d bytes,
     json_Marshal_results Sample.world d = Ok bytes -> Sample.is_text bytes) /\
  JsonArray Sample.is_text [Sample.text 1; Sample.text 2]
    (array_body [Sample.text 1; Sample.text 2]) /\
  body (processResults Sample.world newResponse
          {| pending := cursor_of Sample.documents_of_A; closed := 0 |}
          0 initial_state).1.1.2
  = array_body [Sample.text 1; Sample.text 2].
Proof.
  pose proof (C7_stream_is_a_json_array Sample.world Sample.is_text
                Sample.documents_of_A 0 0 initial_state sample_marshal_is_text)
    as (_ & Hbody & Harr & _).
  split; [exact sample_marshal_is_text|]. split.
  - rewrite Hbody in Harr. exact Harr.
  - exact Hbody.
Defined.

(** ** Further properties of the handlers *)

Section Composition.

Context {Value : Type}.
Variable w : World Value.

(** The data handler, once the parameters are read: the gate, then the
    lookups, then the query and the stream. *)
Lemma handle_data_eq res req s p0 :
  GetParams w (URL_Query req) = Ok p0 ->
  handle_data w res req s =
  let start := Now w (ticks s) in
  let s0 := continued (ticked s) (CGetParams :: auth_calls w req) [] in
  match authorize w res start (identity w req) p0 s0 with
  | (Return r, s1) =>
      ({| response := r; cursor := None; completion := Returns |}, s1)
  | (Continue _, s1) =>
      match enrich w res req start p0 s1 with
      | (Return r, s2) =>
          ({| response := r; cursor := None; completion := Returns |}, s2)
      | (Continue p, s2) => queryAndStream w res p s2
      end
  end.
Proof.
  intros HG. unfold handle_data. unfold bind at 1, time_Now at 1.
  cbv beta iota zeta. fold (ticked s).
  unfold bind at 1, resolveFilter.
  pose proof (parseParams_run w res req (Now w (ticks s)) (ticked s)) as Hp.
  rewrite HG in Hp.
  rewrite (bindH_continue _ _ _ _ _ Hp).
  rewrite (bindH_continue _ _ _ _ _ (lift_run _ _ _ _ (authenticate_run w _ _))).
  rewrite continued_continued. simpl.
  unfold bindH at 1.
  destruct (authorize w res (Now w (ticks s)) (identity w req) p0 _)
    as [[[]|r] s1]; [|done].
  by destruct (enrich w res req (Now w (ticks s)) p0 s1) as [[p|r] s2].
Qed.

End Composition.

Section Handlers.

Context {Value : Type}.
Variable w : World Value.

(** *** The gate, exactly *)

Lemma can_view_true u t : can_view w u t = true <-> u = t \/ grants w u t.
Proof.
  unfold can_view, userCanViewData, grants.
  destruct (decide (u = t)) as [->|Hne]; simpl.
  - split; [by left|done].
  - unfold bind. rewrite called_run.
    destruct (UserInGroup w u t) as [perms|err];
      rewrite log_Println_run; unfold ret; simpl.
    + rewrite negb_true_iff, andb_false_iff. split.
      * intros Hp. right. by exists perms.
      * intros [?|(perms' & [= <-] & Hp)]; done.
    + split; [done|]. by intros [?|(perms' & [=] & _)].
Qed.

Lemma gate_allows_true td p :
  gate_allows w td p = true <-> may_view w td (UserId p).
Proof.
  rewrite gate_allows_eq. unfold may_view. destruct td as [t|].
  - rewrite !orb_true_iff, can_view_true, bool_decide_eq_true. split.
    + intros H. exists t. split; [done|]. tauto.
    + intros (t' & [= <-] & H). tauto.
  - split; [done|]. by intros (t & [=] & _).
Qed.

Lemma userCanViewData_eq u t s :
  userCanViewData w u t s =
  (can_view w u t,
   if decide (u = t) then s
   else continued s [CUserInGroup u t]
          match UserInGroup w u t with
          | Ok perms => [LogPerms perms]
          | Err err => [LogGroupLookupError err]
          end).
Proof.
  unfold can_view, userCanViewData.
  destruct (decide (u = t)) as [->|Hne]; [done|].
  unfold bind. rewrite !called_run.
  destruct (UserInGroup w u t) as [perms|err];
    rewrite !log_Println_run; unfold ret; simpl;
    by rewrite continued_continued.
Qed.

Lemma authorize_eq res start td p s :
  let gcs := gate_calls td (UserId p) in
  let gls := gate_logs w td (UserId p) in
  authorize w res start td p s =
  if gate_allows w td p then (Continue tt, continued s gcs gls)
  else (Return (error_response w res (error_no_view_permisson (globals s))
                  (NewV4 w (uuids s))),
        aborted w s gcs gls (error_no_view_permisson (globals s)) start).
Proof.
  intros gcs gls. subst gcs gls.
  rewrite gate_allows_eq. unfold authorize, gate_calls, gate_logs, needs_sharing.
  destruct td as [t|].
  - destruct (IsServer t || bool_decide (UserID t = UserId p)) eqn:E.
    + unfold bind, ret. simpl. by rewrite continued_nil.
    + apply orb_false_iff in E as [_ Hne%bool_decide_eq_false].
      unfold bind at 1. rewrite userCanViewData_eq.
      destruct (decide (UserID t = UserId p)) as [?|_]; [done|].
      destruct (can_view w (UserID t) (UserId p)); simpl; [done|].
      apply (report_run w error_no_view_permisson).
  - unfold bind at 1, ret at 1. simpl.
    rewrite <- (continued_nil s) at 1.
    apply (report_run w error_no_view_permisson).
Qed.

(** *** The status probe *)

(** X1. GET /status makes one call, the ping of the store, and consults no
    credentials.  When the store answers, the response is 200 with the body
    OK and a newline, nothing is logged and no identifier is drawn; when the
    ping fails, the response is the envelope of error_status_check under a
    new identifier, and the cause appears in the log line only.  With the
    catalog as declared the probe answers 200 exactly when the store
    answers the ping, and 500 otherwise. *)
Theorem X1_status_probe s :
  let r := handle_status w newResponse s in
  calls r.2 = calls s ++ [CPing] /\
  globals r.2 = globals s /\
  match Ping w with
  | None =>
      r.1 = {| headers := []; status := Some StatusOK;
               body := ("OK" ++ newline)%string |} /\
      logs r.2 = logs s /\ uuids r.2 = uuids s
  | Some err =>
      let e := error_status_check (globals s) in
      let id := NewV4 w (uuids s) in
      r.1 = {| headers := [("content-type", "application/json")];
               status := Some (Status e);
               body := json_Marshal_detailedError w (set_Id id e) |} /\
      logs r.2 = logs s ++
        [LogFailure id (Code e) (Now w (S (ticks s)) - Now w (ticks s))
           (Message e) err] /\
      uuids r.2 = S (uuids s)
  end /\
  (globals s = package_vars ->
   (status r.1 = Some StatusOK <-> Ping w = None) /\
   (status r.1 = Some StatusInternalServerError <-> Ping w <> None)).
Proof.
  unfold handle_status. unfold bind at 1, time_Now at 1. cbv beta iota zeta.
  unfold bind at 1. rewrite called_run.
  destruct (Ping w) as [err|].
  - unfold bind, global. cbv beta iota. rewrite jsonError_run. simpl.
    rewrite app_nil_r. split; [done|]. split; [done|]. split; [done|].
    intros ->. simpl. split; split; done.
  - unfold ret. simpl. split; [done|]. split; [done|]. split; [done|].
    intros _. split; split; done.
Qed.

(** *** The status of a data request *)

Lemma stream_response_headers items :
  headers (stream_response w newResponse items)
  = [("Content-Type", "application/json")].
Proof.
  unfold stream_response.
  set (opened := write_elements _ 0 _).
  assert (headers opened = [("Content-Type", "application/json")]) as Hh
    by (unfold opened; by rewrite write_elements_headers).
  destruct (breaks items); [done|].
  rewrite Write_headers.
  destruct (0 <? _)%nat; by rewrite ?Write_headers, Hh.
Qed.

(** X3. With the catalog as declared, a data request is answered with
    status 200, 403 or 500 and exactly one content-type header, whose value
    is application/json.  The status is 200 exactly when a cursor was
    acquired, and 403 exactly when the parameters parse and the gate
    refuses the identity for the target; every other failure is a 500. *)
Theorem X3_status_of_a_data_request req s :
  globals s = package_vars ->
  let r := handle_data w newResponse req s in
  let st := status (response r.1) in
  (st = Some StatusOK \/ st = Some StatusForbidden \/
   st = Some StatusInternalServerError) /\
  (st = Some StatusOK <-> is_Some (cursor r.1)) /\
  (st = Some StatusForbidden <->
   exists p0, GetParams w (URL_Query req) = Ok p0 /\
              gate_denies w (identity w req) (UserId p0)) /\
  (exists k, headers (response r.1) = [(k, "application/json")] /\
             (k = "content-type" \/ k = "Content-Type")).
Proof.
  intros Hg r st. subst r st.
  destruct (handle_data w newResponse req s) as [out s'] eqn:E.
  apply handle_data_run in E.
  inversion E as [err' HG
                 |p0 gcs gls HG ? Hgate
                 |p0 gcs gls pre c entry HG ? Hgate ? ? ?
                 |p0 gcs gls ecs p items ? ? HG ? Hgate ? ? ? ?
                    Hres Hcur ? ? ? ? ?];
    subst; cbn [fst snd response cursor]; rewrite ?Hg.
  - split_and!.
    + by right; right.
    + split; [done|]. by intros [? [=]].
    + split; [done|]. intros (p0 & Hp & _). congruence.
    + exists "content-type". split; [done|by left].
  - split_and!.
    + by right; left.
    + split; [done|]. by intros [? [=]].
    + split; [|done]. intros _. exists p0. split; [done|].
      by apply gate_allows_false.
    + exists "content-type". split; [done|by left].
  - split_and!.
    + by right; right.
    + split; [done|]. by intros [? [=]].
    + split; [done|]. intros (p1 & Hp & Hdeny%gate_allows_false).
      assert (p1 = p0) as -> by congruence. congruence.
    + exists "content-type". split; [done|by left].
  - rewrite Hres, Hcur, stream_response_status, stream_response_headers.
    split_and!.
    + by left.
    + split; [by eexists|done].
    + split; [done|]. intros (p1 & Hp & Hdeny%gate_allows_false).
      assert (p1 = p0) as -> by congruence. congruence.
    + exists "Content-Type". split; [done|by right].
Qed.

(** *** What the store is asked *)

Lemma store_user_stage c u :
  store_user c = Some u -> stage c = 3%nat \/ stage c = 4%nat.
Proof. destruct c; simpl; intros [=]; auto. Qed.

Lemma store_user_lookup (ecs : list Call) target c u :
  sublist ecs (lookups_in_order target) -> c ∈ ecs ->
  store_user c = Some u -> u = target.
Proof.
  intros Hs%sublist_subseteq Hin. specialize (Hs _ Hin).
  unfold lookups_in_order in Hs. rewrite !elem_of_cons, elem_of_nil in Hs.
  destruct Hs as [->|[->|[->|[->|[]]]]]; simpl; congruence.
Qed.

(** X4. Every call a data request makes on the store (the four lookups and
    the query) is about the target user of the request, and is made only
    for an identity that may view that user: a server, the target, or a
    user to whom the sharing service grants root or view.  In particular a
    request without identity, or one the sharing service does not vouch
    for, never reaches the store. *)
Theorem X4_store_access_is_authorized res req s :
  let r := handle_data w res req s in
  exists cs,
    calls r.2 = calls s ++ cs /\
    forall c u,
      c ∈ cs -> store_user c = Some u ->
      exists p0,
        GetParams w (URL_Query req) = Ok p0 /\ u = UserId p0 /\
        may_view w (identity w req) u.
Proof.
  intros r. subst r.
  destruct (handle_data w res req s) as [out s'] eqn:E.
  apply handle_data_run in E.
  pose proof (auth_calls_stage w req) as Hauth.
  assert (forall (gcs : list Call) c u,
            Forall (fun c => stage c = 2%nat) gcs ->
            c ∈ CGetParams :: auth_calls w req ++ gcs ->
            store_user c = Some u -> False) as Hearly.
  { intros gcs c u Hgs Hin Hu. apply store_user_stage in Hu.
    rewrite elem_of_cons, elem_of_app in Hin.
    destruct Hin as [->|[H|H]].
    - simpl in Hu. lia.
    - apply (elem_stage _ _ _ Hauth) in H. lia.
    - apply (elem_stage _ _ _ Hgs) in H. lia. }
  inversion E as [err' HG
                 |p0 gcs gls HG [Hgs _] Hgate
                 |p0 gcs gls pre c0 entry HG [Hgs _] Hgate [Hsub _] ? ?
                 |p0 gcs gls ecs p items ? ? HG [Hgs _] Hgate [Hsub _] ?
                    (Hu & _) ? ? ? ? ? ? Hcalls ?];
    subst; cbn [fst snd].
  - exists [CGetParams]. split; [done|].
    intros c u [= ->]%list_elem_of_singleton [=].
  - eexists. split; [reflexivity|]. intros c u Hin Hc.
    by destruct (Hearly gcs c u).
  - eexists. split; [reflexivity|]. intros c u Hin Hc.
    apply gate_allows_true in Hgate.
    rewrite app_comm_cons, !app_assoc, <- app_assoc in Hin.
    apply elem_of_app in Hin as [Hin|Hin].
    + rewrite <- app_comm_cons in Hin. by destruct (Hearly gcs c u).
    + rewrite (store_user_lookup _ _ _ _ Hsub Hin Hc). by exists p0.
  - eexists. split; [exact Hcalls|]. intros c u Hin Hc.
    apply gate_allows_true in Hgate.
    rewrite app_comm_cons, !app_assoc, <- app_assoc in Hin.
    apply elem_of_app in Hin as [Hin|Hin].
    { rewrite <- app_comm_cons in Hin. by destruct (Hearly gcs c u). }
    apply elem_of_app in Hin as [Hin|Hin].
    { rewrite (store_user_lookup _ _ _ _ Hsub Hin Hc). by exists p0. }
    rewrite elem_of_cons, elem_of_app, list_elem_of_singleton in Hin.
    destruct Hin as [->|[[-> _]%elem_of_replicate| ->]]; try done.
    simpl in Hc. injection Hc as <-. rewrite Hu. by exists p0.
Qed.

(** *** The filter, exactly *)

Lemma bindH_continue_inv {A B} (m : H A) (k : A -> H B) s b s' :
  bindH m k s = (Continue b, s') ->
  exists a s1, m s = (Continue a, s1) /\ k a s1 = (Continue b, s').
Proof.
  unfold bindH. destruct (m s) as [[a|r] s1]; [|discriminate].
  intros Hk. by exists a, s1.
Qed.

Lemma enrichCarelink_continue res req start p s p' s' :
  enrichCarelink w res req start p s = (Continue p', s') ->
  s' = continued s
         match URL_Query req !! "carelink" with
         | Some _ => []
         | None => [CHasMedtronicDirectData (UserId p)]
         end [] /\
  (p' = p \/ (URL_Query req !! "carelink" = None /\ p' = set_Carelink true p)).
Proof.
  unfold enrichCarelink. destruct (URL_Query req !! "carelink").
  - unfold ret. intros [= <- <-]. rewrite continued_nil. auto.
  - destruct (HasMedtronicDirectData w (UserId p)) as [b|err].
    + destruct b; simpl; rewrite lookup_passed_run; intros [= <- <-]; auto.
    + rewrite lookup_failed_run. discriminate.
Qed.

Lemma enrichDexcom_continue res start p s p' s' :
  enrichDexcom w res start p s = (Continue p', s') ->
  s' = continued s
         (if Dexcom p then [] else [CGetDexcomDataSource (UserId p)]) [] /\
  (p' = p \/ (Dexcom p = false /\ exists d, p' = set_DexcomDataSource d p)).
Proof.
  unfold enrichDexcom. destruct (Dexcom p); simpl.
  - unfold ret. intros [= <- <-]. rewrite continued_nil. auto.
  - destruct (GetDexcomDataSource w (UserId p)) as [d|err].
    + rewrite lookup_passed_run. intros [= <- <-]. eauto.
    + rewrite lookup_failed_run. discriminate.
Qed.

Lemma enrichMedtronic_continue res req start p s p' s' :
  enrichMedtronic w res req start p s = (Continue p', s') ->
  s' = continued s
         match URL_Query req !! "medtronic" with
         | Some _ => []
         | None => [CHasMedtronicLoopDataAfter (UserId p) MedtronicLoopBoundaryDate]
         end [] /\
  (p' = p \/ (URL_Query req !! "medtronic" = None /\ p' = set_Medtronic true p)).
Proof.
  unfold enrichMedtronic. destruct (URL_Query req !! "medtronic").
  - unfold ret. intros [= <- <-]. rewrite continued_nil. auto.
  - destruct (HasMedtronicLoopDataAfter w (UserId p) MedtronicLoopBoundaryDate)
      as [b|err].
    + destruct b; simpl; rewrite lookup_passed_run; intros [= <- <-]; auto.
    + rewrite lookup_failed_run. discriminate.
Qed.

Lemma enrichUploadIds_continue res start p s p' s' :
  enrichUploadIds w res start p s = (Continue p', s') ->
  s' = continued s
         (if Medtronic p then []
          else [CGetLoopableMedtronicDirectUploadIdsAfter (UserId p)
                  MedtronicLoopBoundaryDate]) [] /\
  ((Medtronic p = true /\ p' = p) \/
   (Medtronic p = false /\
    exists ids, p' = set_MedtronicLoop MedtronicLoopBoundaryDate ids p)).
Proof.
  unfold enrichUploadIds. destruct (Medtronic p); simpl.
  - unfold ret. intros [= <- <-]. rewrite continued_nil. auto.
  - destruct (GetLoopableMedtronicDirectUploadIdsAfter w (UserId p)
                MedtronicLoopBoundaryDate) as [ids|err].
    + rewrite lookup_passed_run. intros [= <- <-]. eauto.
    + rewrite lookup_failed_run. discriminate.
Qed.

(** A run of the four lookups that falls through: the lookups made, and
    what became of the filter. *)
Lemma enrich_continue res req start p s p' s' :
  enrich w res req start p s = (Continue p', s') ->
  s' = continued s (lookups_needed req p p') [] /\
  same_request p p' /\
  (is_Some (URL_Query req !! "carelink") -> Carelink p' = Carelink p) /\
  (Carelink p = true -> Carelink p' = true) /\
  (Dexcom p = true -> DexcomDataSource p' = DexcomDataSource p) /\
  (is_Some (URL_Query req !! "medtronic") -> Medtronic p' = Medtronic p) /\
  (Medtronic p = true -> Medtronic p' = true) /\
  (Medtronic p' = true ->
   MedtronicDate p' = MedtronicDate p /\
   MedtronicUploadIds p' = MedtronicUploadIds p).
Proof.
  unfold enrich. intros H.
  apply bindH_continue_inv in H as (p1 & s1 & H1 & H).
  apply bindH_continue_inv in H as (p2 & s2 & H2 & H).
  apply bindH_continue_inv in H as (p3 & s3 & H3 & H4).
  apply enrichCarelink_continue in H1 as [-> C1].
  apply enrichDexcom_continue in H2 as [-> C2].
  apply enrichMedtronic_continue in H3 as [-> C3].
  apply enrichUploadIds_continue in H4 as [-> C4].
  rewrite !continued_continued. unfold lookups_needed, same_request.
  destruct C1 as [->|[Hq1 ->]], C2 as [->|[Hd (d & ->)]],
    C3 as [->|[Hq3 ->]], C4 as [[Hm ->]|[Hm (ids & ->)]];
    simpl in *; rewrite ?Hq1, ?Hq3, ?Hd, ?Hm; simpl;
    (split; [done|]); split_and!; try done; try congruence;
    try (by intros [? [=]]).
Qed.

(** *** The runs that reach the store *)

Lemma handle_data_admitted res req s p0 :
  GetParams w (URL_Query req) = Ok p0 ->
  gate_allows w (identity w req) p0 = true ->
  handle_data w res req s =
  match enrich w res req (Now w (ticks s)) p0
          (continued (ticked s)
             (CGetParams :: auth_calls w req ++
              gate_calls (identity w req) (UserId p0))
             (gate_logs w (identity w req) (UserId p0))) with
  | (Return r, s2) =>
      ({| response := r; cursor := None; completion := Returns |}, s2)
  | (Continue p, s2) => queryAndStream w res p s2
  end.
Proof.
  intros HG Hgate. rewrite (handle_data_eq w res req s p0 HG). cbv zeta.
  rewrite authorize_eq. cbv zeta. rewrite Hgate, continued_continued.
  by rewrite <- app_comm_cons.
Qed.

Lemma handle_data_refused res req s p0 :
  GetParams w (URL_Query req) = Ok p0 ->
  gate_allows w (identity w req) p0 = false ->
  handle_data w res req s =
  ({| response :=
        error_response w res (error_no_view_permisson (globals s))
          (NewV4 w (uuids s));
      cursor := None; completion := Returns |},
   aborted w (ticked s)
     (CGetParams :: auth_calls w req ++ gate_calls (identity w req) (UserId p0))
     (gate_logs w (identity w req) (UserId p0))
     (error_no_view_permisson (globals s)) (Now w (ticks s))).
Proof.
  intros HG Hgate. rewrite (handle_data_eq w res req s p0 HG). cbv zeta.
  rewrite authorize_eq. cbv zeta. rewrite Hgate, aborted_continued.
  by rewrite <- app_comm_cons.
Qed.

Lemma handle_data_unparsed res req s err :
  GetParams w (URL_Query req) = Err err ->
  handle_data w res req s =
  ({| response :=
        error_response w res (error_invalid_parameters (globals s))
          (NewV4 w (uuids s));
      cursor := None; completion := Returns |},
   aborted w (ticked s) [CGetParams] [LogParseError err]
     (error_invalid_parameters (globals s)) (Now w (ticks s))).
Proof.
  intros HG.
  destruct (handle_data w res req s) as [out s'] eqn:E.
  apply handle_data_run in E.
  inversion E as [err' HG'|p0 ? ? HG'|p0 ? ? ? ? ? HG'|p0 ? ? ? ? ? ? ? HG'];
    subst; congruence.
Qed.

(** A run acquires a cursor exactly by getting through the parameters, the
    gate and the lookups; it is then the query and the stream, started
    from the state those left. *)
Lemma handle_data_streamed res req s :
  is_Some (cursor (handle_data w res req s).1) ->
  exists p0 p,
    GetParams w (URL_Query req) = Ok p0 /\
    gate_allows w (identity w req) p0 = true /\
    let s1 := continued (ticked s)
                (CGetParams :: auth_calls w req ++
                 gate_calls (identity w req) (UserId p0))
                (gate_logs w (identity w req) (UserId p0)) in
    enrich w res req (Now w (ticks s)) p0 s1
      = (Continue p, continued s1 (lookups_needed req p0 p) []) /\
    handle_data w res req s
      = queryAndStream w res p (continued s1 (lookups_needed req p0 p) []).
Proof.
  destruct (GetParams w (URL_Query req)) as [p0|err] eqn:HG.
  2:{ rewrite (handle_data_unparsed _ _ _ _ HG). by intros [? [=]]. }
  destruct (gate_allows w (identity w req) p0) eqn:Hgate.
  2:{ rewrite (handle_data_refused _ _ _ _ HG Hgate). by intros [? [=]]. }
  rewrite (handle_data_admitted _ _ _ _ HG Hgate).
  destruct (enrich w res req _ p0 _) as [[p|r] s2] eqn:Hen.
  2:{ by intros [? [=]]. }
  intros _. exists p0, p.
  destruct (enrich_continue _ _ _ _ _ _ _ Hen) as [-> _].
  by split_and!.
Qed.

Lemma gate_calls_stage td u : Forall (fun c => stage c = 2%nat) (gate_calls td u).
Proof.
  unfold gate_calls. destruct (needs_sharing td u); by repeat constructor.
Qed.

Lemma lookups_needed_stage req p0 p :
  Forall (fun c => stage c = 3%nat) (lookups_needed req p0 p).
Proof.
  unfold lookups_needed.
  destruct (URL_Query req !! "carelink"), (Dexcom p0),
    (URL_Query req !! "medtronic"), (Medtronic p); by repeat constructor.
Qed.

(** The calls of any run of the data handler. *)
Lemma handle_data_calls res req s :
  let r := handle_data w res req s in
  exists cs,
    calls r.2 = calls s ++ cs /\
    match GetParams w (URL_Query req) with
    | Err _ => cs = [CGetParams]
    | Ok p0 =>
        exists rest,
          cs = CGetParams :: auth_calls w req ++
               gate_calls (identity w req) (UserId p0) ++ rest /\
          ((cursor r.1 = None /\ Forall (fun c => stage c = 3%nat) rest) \/
           (exists p s1 s2,
              enrich w res req (Now w (ticks s)) p0 s1 = (Continue p, s2) /\
              rest = lookups_needed req p0 p ++
                     CGetDeviceData p ::
                     replicate (S (length (produced (GetDeviceData w p)))) CNext ++
                     [CClose]))
    end.
Proof.
  intros r. subst r.
  destruct (GetParams w (URL_Query req)) as [p0|err] eqn:HG.
  2:{ rewrite (handle_data_unparsed _ _ _ _ HG). by exists [CGetParams]. }
  destruct (gate_allows w (identity w req) p0) eqn:Hgate.
  2:{ rewrite (handle_data_refused _ _ _ _ HG Hgate). eexists.
      split; [reflexivity|]. exists []. rewrite app_nil_r. split; [done|].
      left. by split. }
  rewrite (handle_data_admitted _ _ _ _ HG Hgate).
  destruct (enrich w res req _ p0 _) as [[p|r] s2] eqn:Hen.
  - destruct (enrich_continue _ _ _ _ _ _ _ Hen) as [-> _].
    destruct (queryAndStream_run w res p
                (continued
                   (continued (ticked s)
                      (CGetParams :: auth_calls w req ++
                       gate_calls (identity w req) (UserId p0))
                      (gate_logs w (identity w req) (UserId p0)))
                   (lookups_needed req p0 p) []))
      as (_ & _ & _ & _ & _ & Hcalls & _).
    rewrite Hcalls. unfold continued, ticked. cbn [calls].
    exists (CGetParams :: auth_calls w req ++
            gate_calls (identity w req) (UserId p0) ++
            lookups_needed req p0 p ++
            CGetDeviceData p ::
            replicate (S (length (produced (GetDeviceData w p)))) CNext ++
            [CClose]).
    split; [by rewrite <- ?app_assoc, <- ?app_comm_cons, <- ?app_assoc|].
    eexists. split; [reflexivity|]. right. exists p. do 2 eexists.
    split; [exact Hen|reflexivity].
  - destruct (enrich_run w res req (Now w (ticks s)) p0
                (continued (ticked s)
                   (CGetParams :: auth_calls w req ++
                    gate_calls (identity w req) (UserId p0))
                   (gate_logs w (identity w req) (UserId p0))))
      as (ecs & Hsub%lookups_stage & _ &
          [(p & Hen' & _)|(pre & c & entry & -> & _ & _ & Hen')]);
      rewrite Hen in Hen'; [discriminate|].
    injection Hen' as _ ->. unfold aborted, continued, ticked. cbn [snd calls].
    exists (CGetParams :: auth_calls w req ++
            gate_calls (identity w req) (UserId p0) ++ pre ++ [c]).
    split; [by rewrite <- ?app_assoc, <- ?app_comm_cons, <- ?app_assoc|].
    eexists. split; [reflexivity|]. left. by split.
Qed.

(** X2. The sharing service is asked at most once per request, and exactly
    when the parameters parse and the identity resolved is neither a server
    nor the target: it is then asked whether that identity belongs to the
    group of the target.  A server token and the owner of the data never
    cause a sharing lookup, and neither does a request without identity. *)
Theorem X2_sharing_service_is_asked_only_when_needed res req s :
  let r := handle_data w res req s in
  exists cs,
    calls r.2 = calls s ++ cs /\
    (forall u g,
       CUserInGroup u g ∈ cs <->
       exists p0 t,
         GetParams w (URL_Query req) = Ok p0 /\ identity w req = Some t /\
         IsServer t = false /\ UserID t <> UserId p0 /\
         u = UserID t /\ g = UserId p0) /\
    (length (filter (fun c => stage c = 2%nat) cs) <= 1)%nat.
Proof.
  intros r. subst r.
  destruct (handle_data_calls res req s) as (cs & Hcalls & Hcs).
  exists cs. split; [exact Hcalls|].
  destruct (GetParams w (URL_Query req)) as [p0|err] eqn:HG.
  2:{ subst cs. split; [|simpl; lia]. intros u g. split.
      - by intros [=]%list_elem_of_singleton.
      - by intros (p0 & t & [=] & _). }
  destruct Hcs as (rest & -> & Hrest).
  assert (Forall (fun c => (3 <= stage c)%nat) rest) as Hlate.
  { destruct Hrest as [[_ H3]|(p & s1 & s2 & _ & ->)].
    - eapply Forall_impl; [exact H3|]. simpl. intros; lia.
    - apply Forall_app. split.
      + eapply Forall_impl; [apply lookups_needed_stage|]. simpl. intros; lia.
      + eapply Forall_impl; [apply stream_calls_ordered|]. simpl. intros; lia. }
  pose proof (auth_calls_stage w req) as Hauth.
  split.
  - intros u g. rewrite elem_of_cons, !elem_of_app.
    unfold gate_calls, needs_sharing.
    split.
    + intros [[=]|[H|[H|H]]].
      * by apply (elem_stage _ _ _ Hauth) in H.
      * destruct (identity w req) as [t|]; [|by apply elem_of_nil in H].
        destruct (IsServer t || bool_decide (UserID t = UserId p0)) eqn:E;
          [by apply elem_of_nil in H|].
        apply list_elem_of_singleton in H as [= -> ->].
        apply orb_false_iff in E as [Hs Hne%bool_decide_eq_false].
        by exists p0, t.
      * rewrite Forall_forall in Hlate. specialize (Hlate _ H).
        simpl in Hlate. lia.
    + intros (p1 & t & [= <-] & -> & Hs & Hne & -> & ->).
      right; right; left. rewrite Hs. simpl.
      rewrite bool_decide_eq_false_2 by done. by apply list_elem_of_singleton.
  - rewrite filter_cons_False by done. rewrite !filter_app.
    rewrite (filter_stage_nil _ (auth_calls w req) 1) by (done || congruence).
    rewrite (filter_stage_all _ (gate_calls (identity w req) (UserId p0)) 2)
      by (apply gate_calls_stage || done).
    assert (filter (fun c => stage c = 2%nat) rest = []) as ->.
    { clear -Hlate. induction Hlate as [|c l Hc Hl IH]; [done|].
      rewrite filter_cons_False by lia. exact IH. }
    rewrite app_nil_r. simpl. unfold gate_calls.
    destruct (needs_sharing _ _); simpl; lia.
Qed.

(** X5. The filter of the query differs from the parsed parameters only
    where the lookups say so.  The user, the types, the subtypes, the dates
    and the Dexcom flag are those of the request.  Carelink and Medtronic
    can only be switched on, and are left as parsed when the request gives
    a carelink (resp. medtronic) parameter, whatever its value; the Dexcom
    data source is left as parsed when Dexcom is set; and when Medtronic
    ends up set, the Medtronic date and upload ids are left as parsed. *)
Theorem X5_enrichment_keeps_the_request res req s :
  let r := handle_data w res req s in
  exists cs,
    calls r.2 = calls s ++ cs /\
    forall p,
      CGetDeviceData p ∈ cs ->
      exists p0,
        GetParams w (URL_Query req) = Ok p0 /\
        same_request p0 p /\
        (is_Some (URL_Query req !! "carelink") -> Carelink p = Carelink p0) /\
        (Carelink p0 = true -> Carelink p = true) /\
        (Dexcom p0 = true -> DexcomDataSource p = DexcomDataSource p0) /\
        (is_Some (URL_Query req !! "medtronic") -> Medtronic p = Medtronic p0) /\
        (Medtronic p0 = true -> Medtronic p = true) /\
        (Medtronic p = true ->
         MedtronicDate p = MedtronicDate p0 /\
         MedtronicUploadIds p = MedtronicUploadIds p0).
Proof.
  intros r. subst r.
  destruct (handle_data_calls res req s) as (cs & Hcalls & Hcs).
  exists cs. split; [exact Hcalls|]. intros q Hin.
  destruct (GetParams w (URL_Query req)) as [p0|err] eqn:HG.
  2:{ subst cs. by apply list_elem_of_singleton in Hin. }
  destruct Hcs as (rest & -> & Hrest).
  pose proof (auth_calls_stage w req) as Hauth.
  pose proof (gate_calls_stage (identity w req) (UserId p0)) as Hgs.
  rewrite elem_of_cons, !elem_of_app in Hin.
  destruct Hin as [[=]|[H|[H|H]]].
  { by apply (elem_stage _ _ _ Hauth) in H. }
  { by apply (elem_stage _ _ _ Hgs) in H. }
  destruct Hrest as [[_ H3]|(p & s1 & s2 & Hen & ->)].
  { by apply (elem_stage _ _ _ H3) in H. }
  rewrite elem_of_app, elem_of_cons, elem_of_app, list_elem_of_singleton in H.
  destruct H as [H|[[= ->]|[[? _]%elem_of_replicate|?]]]; try done.
  { by apply (elem_stage _ _ _ (lookups_needed_stage req p0 p)) in H. }
  exists p0. split; [done|].
  by destruct (enrich_continue _ _ _ _ _ _ _ Hen) as [_ ?].
Qed.

(** X6. A request that acquires a cursor has made exactly these calls, in
    this order: the parameter reading, the calls of the authenticator, the
    sharing lookup if the gate needed it, the lookups needed, the query
    with the resolved filter, one read of the cursor per document produced
    and one more, and the release of the cursor.  Each lookup is made at
    most once: the Medtronic-direct one exactly when the request gives no
    carelink parameter, the Dexcom one exactly when the Dexcom flag is not
    set, the Medtronic-loop one exactly when the request gives no medtronic
    parameter, and the upload-id one exactly when the filter ends up with
    Medtronic not set. *)
Theorem X6_calls_of_a_streamed_request res req s :
  let r := handle_data w res req s in
  is_Some (cursor r.1) ->
  exists p0 p,
    GetParams w (URL_Query req) = Ok p0 /\
    calls r.2 =
      calls s ++ CGetParams :: auth_calls w req ++
      gate_calls (identity w req) (UserId p0) ++
      lookups_needed req p0 p ++
      CGetDeviceData p ::
      replicate (S (length (produced (GetDeviceData w p)))) CNext ++ [CClose] /\
    let u := UserId p0 in
    let date := MedtronicLoopBoundaryDate in
    let ecs := lookups_needed req p0 p in
    NoDup ecs /\
    (CHasMedtronicDirectData u ∈ ecs <-> URL_Query req !! "carelink" = None) /\
    (CGetDexcomDataSource u ∈ ecs <-> Dexcom p0 = false) /\
    (CHasMedtronicLoopDataAfter u date ∈ ecs <->
     URL_Query req !! "medtronic" = None) /\
    (CGetLoopableMedtronicDirectUploadIdsAfter u date ∈ ecs <->
     Medtronic p = false).
Proof.
  intros r Hc. subst r.
  destruct (handle_data_streamed res req s Hc) as (p0 & p & HG & _ & _ & Hrun).
  cbv zeta in Hrun. exists p0, p. split; [exact HG|]. split.
  - rewrite Hrun.
    destruct (queryAndStream_run w res p
                (continued
                   (continued (ticked s)
                      (CGetParams :: auth_calls w req ++
                       gate_calls (identity w req) (UserId p0))
                      (gate_logs w (identity w req) (UserId p0)))
                   (lookups_needed req p0 p) []))
      as (_ & _ & _ & _ & _ & Hcalls & _).
    rewrite Hcalls. unfold continued, ticked. cbn [calls].
    by rewrite <- ?app_assoc, <- ?app_comm_cons, <- ?app_assoc.
  - cbv zeta. unfold lookups_needed.
    destruct (URL_Query req !! "carelink"), (Dexcom p0),
      (URL_Query req !! "medtronic"), (Medtronic p); simpl;
      (split; [repeat constructor; set_solver|]);
      split_and!; split; try done;
      rewrite ?elem_of_cons, ?elem_of_nil; naive_solver.
Qed.

(** *** What is streamed *)

Lemma unbroken_cursor (items : list (NextResult Value)) :
  breaks items = false ->
  items = cursor_of (produced items) /\ unread items = [].
Proof.
  induction items as [|[d|] items IH]; simpl; [done| |done].
  intros Hb. destruct (IH Hb) as [IH1 IH2]. split; [|done].
  unfold cursor_of in *. simpl. by rewrite <- IH1.
Qed.

Lemma array_body_open elems :
  array_body elems =
  (open_array elems ++
   match elems with [] => "]" | _ :: _ => newline ++ "]" end)%string.
Proof.
  destruct elems as [|e rest]; [done|]. unfold array_body, open_array.
  by rewrite !string_app_assoc.
Qed.

Lemma stream_response_broken items :
  breaks items = true ->
  body (stream_response w newResponse items)
  = open_array (written w (produced items)).
Proof.
  unfold stream_response. intros ->.
  rewrite write_elements_body. by destruct (written w (produced items)).
Qed.

Lemma panicked_has_cursor res req s :
  completion (handle_data w res req s).1 = Panicked ->
  is_Some (cursor (handle_data w res req s).1).
Proof.
  destruct (handle_data w res req s) as [out s'] eqn:E.
  apply handle_data_run in E.
  inversion E as [err' HG|p0 ? ? HG|p0 ? ? ? ? ? HG
                 |p0 ? ? ? ? ? ? ? HG ? ? ? ? ? ? ? Hcur];
    subst; simpl; first [done | intros _; rewrite Hcur; by eexists].
Qed.

(** What a run that acquires a cursor leaves behind, in terms of what the
    cursor of its query holds. *)
Lemma handle_data_stream req s :
  let r := handle_data w newResponse req s in
  is_Some (cursor r.1) ->
  exists p0 p,
    GetParams w (URL_Query req) = Ok p0 /\ UserId p = UserId p0 /\
    let items := GetDeviceData w p in
    response r.1 = stream_response w newResponse items /\
    cursor r.1 = Some {| pending := unread items; closed := 1 |} /\
    completion r.1 = (if breaks items then Panicked else Returns) /\
    uuids r.2 = uuids s /\
    logs r.2 =
      logs s ++ gate_logs w (identity w req) (UserId p0) ++
      LogProcessingStarted (Now w (S (S (ticks s))) - Now w (S (ticks s))) ::
      marshal_failures w (produced items) ++
      (if breaks items then []
       else [LogProcessingFinished
               (Now w (S (S (S (ticks s)))) - Now w (S (ticks s)))
               (length (written w (produced items)))]).
Proof.
  intros r Hc. subst r.
  destruct (handle_data_streamed newResponse req s Hc)
    as (p0 & p & HG & _ & Hen & Hrun).
  cbv zeta in Hen, Hrun.
  destruct (enrich_continue _ _ _ _ _ _ _ Hen) as (_ & (Hu & _) & _).
  exists p0, p. split; [exact HG|]. split; [exact Hu|]. rewrite Hrun.
  destruct (queryAndStream_run w newResponse p
              (continued
                 (continued (ticked s)
                    (CGetParams :: auth_calls w req ++
                     gate_calls (identity w req) (UserId p0))
                    (gate_logs w (identity w req) (UserId p0)))
                 (lookups_needed req p0 p) []))
    as (Hres & Hcur & Hcomp & _ & Huu & _ & Hlogs).
  cbv zeta. split; [exact Hres|]. split; [exact Hcur|]. split; [exact Hcomp|].
  split; [exact Huu|]. rewrite Hlogs. unfold continued, ticked. cbn [logs ticks].
  by rewrite app_nil_r, <- app_assoc.
Qed.

(** X7. A request that acquires a cursor and returns is answered, under
    status 200, with a JSON array of the documents the store gives for the
    resolved filter, whose user is the target of the request: the elements
    are, in order, the texts of the non-empty documents that marshal.  The
    cursor has been read to its end and closed once; no identifier is
    drawn, and the log gains the line of the gate (if any), the start line,
    one line per document that did not marshal, and the finish line with
    the number of elements written. *)
Theorem X7_stream_of_the_target (V : string -> Prop) req s :
  (forall d bytes, json_Marshal_results w d = Ok bytes -> V bytes) ->
  let r := handle_data w newResponse req s in
  is_Some (cursor r.1) -> completion r.1 = Returns ->
  exists p0 p,
    GetParams w (URL_Query req) = Ok p0 /\ UserId p = UserId p0 /\
    let docs := produced (GetDeviceData w p) in
    let elems := written w docs in
    GetDeviceData w p = cursor_of docs /\
    status (response r.1) = Some StatusOK /\
    body (response r.1) = array_body elems /\
    JsonArray V elems (body (response r.1)) /\
    cursor r.1 = Some {| pending := []; closed := 1 |} /\
    uuids r.2 = uuids s /\
    logs r.2 =
      logs s ++ gate_logs w (identity w req) (UserId p0) ++
      LogProcessingStarted (Now w (S (S (ticks s))) - Now w (S (ticks s))) ::
      marshal_failures w docs ++
      [LogProcessingFinished (Now w (S (S (S (ticks s)))) - Now w (S (ticks s)))
         (length elems)].
Proof.
  intros HV r Hc Hret. subst r.
  destruct (handle_data_stream req s Hc)
    as (p0 & p & HG & Hu & Hres & Hcur & Hcomp & Huu & Hlogs).
  cbv zeta in *. rewrite Hcomp in Hret.
  destruct (breaks (GetDeviceData w p)) eqn:Hb; [discriminate|].
  destruct (unbroken_cursor _ Hb) as [Hitems Hunread].
  exists p0, p. split; [exact HG|]. split; [exact Hu|].
  rewrite Hres, Hcur, Hunread, Huu, Hlogs.
  assert (body (stream_response w newResponse (GetDeviceData w p))
          = array_body (written w (produced (GetDeviceData w p)))) as Hbody.
  { rewrite Hitems at 1. apply stream_response_all. }
  split_and!; try done.
  - apply stream_response_status.
  - rewrite Hbody. apply array_body_is_array. by apply written_valid.
Qed.

(** X8. When the cursor breaks while it is read, the handler panics after
    the response has gone out under status 200 with an array that is never
    closed: the body is the complete array of the documents read so far
    without its closing bracket.  No error envelope is written and no
    identifier drawn, the log has no finish line, and the cursor, still
    holding what was not read, has been closed once. *)
Theorem X8_broken_stream_is_truncated req s :
  let r := handle_data w newResponse req s in
  completion r.1 = Panicked ->
  exists p0 p,
    GetParams w (URL_Query req) = Ok p0 /\ UserId p = UserId p0 /\
    let items := GetDeviceData w p in
    let elems := written w (produced items) in
    breaks items = true /\
    status (response r.1) = Some StatusOK /\
    body (response r.1) = open_array elems /\
    array_body elems =
      (body (response r.1) ++
       match elems with [] => "]" | _ :: _ => newline ++ "]" end)%string /\
    cursor r.1 = Some {| pending := unread items; closed := 1 |} /\
    uuids r.2 = uuids s /\
    logs r.2 =
      logs s ++ gate_logs w (identity w req) (UserId p0) ++
      LogProcessingStarted (Now w (S (S (ticks s))) - Now w (S (ticks s))) ::
      marshal_failures w (produced items).
Proof.
  intros r Hpanic. subst r.
  destruct (handle_data_stream req s (panicked_has_cursor _ _ _ Hpanic))
    as (p0 & p & HG & Hu & Hres & Hcur & Hcomp & Huu & Hlogs).
  cbv zeta in *. rewrite Hcomp in Hpanic.
  destruct (breaks (GetDeviceData w p)) eqn:Hb; [|discriminate].
  exists p0, p. split; [exact HG|]. split; [exact Hu|].
  rewrite Hres, Hcur, Huu, Hlogs, app_nil_r, (stream_response_broken _ Hb).
  split_and!; try done.
  - apply stream_response_status.
  - apply array_body_open.
Qed.

Lemma documents_accounted (docs : list (gmap string Value)) :
  length docs =
  (length (written w docs) + length (marshal_failures w docs) +
   length (empty_documents docs))%nat.
Proof.
  induction docs as [|d docs IH]; [done|].
  unfold written, marshal_failures, empty_documents in *.
  cbn [omap list_omap]. rewrite filter_cons.
  destruct (decide (size d = 0%nat)) as [Hz|Hnz].
  - rewrite Hz. simpl. lia.
  - destruct (Nat.ltb_spec 0 (size d)) as [_|?]; [|lia].
    destruct (json_Marshal_results w d); simpl; lia.
Qed.

(** X9. The serializer accounts for every document the cursor produces:
    each one is written as an element, or logged as a marshalling failure,
    or skipped because it is empty.  The finish line reports the number of
    elements written, the cursor is read once per document and once more,
    and the serializer itself never closes the cursor. *)
Theorem X9_every_document_is_accounted_for res
    (docs : list (gmap string Value)) n start s :
  let r := processResults w res {| pending := cursor_of docs; closed := n |}
             start s in
  let elems := written w docs in
  let failed := marshal_failures w docs in
  length docs = (length elems + length failed + length (empty_documents docs))%nat /\
  calls r.2 = calls s ++ replicate (S (length docs)) CNext /\
  logs r.2 =
    logs s ++ LogProcessingStarted (Now w (ticks s) - start) :: failed ++
    [LogProcessingFinished (Now w (S (ticks s)) - start) (length elems)] /\
  r.1.2 = {| pending := []; closed := n |}.
Proof.
  intros r elems failed. subst r elems failed.
  rewrite processResults_run. cbn [fst snd pending closed calls logs].
  destruct (cursor_of_produced docs) as (-> & -> & ->).
  split; [apply documents_accounted|done].
Qed.

End Handlers.

(** ** The further properties on the sample deployment *)

(** X3, on A asking for her own data. *)
Lemma X3_witness :
  globals initial_state = package_vars /\
  status (response
            (handle_data Sample.world newResponse Sample.own_data initial_state).1)
    = Some StatusOK /\
  is_Some (cursor
             (handle_data Sample.world newResponse Sample.own_data initial_state).1).
Proof.
  pose proof (X3_status_of_a_data_request Sample.world Sample.own_data
                initial_state eq_refl) as (_ & [_ H200] & _).
  assert (is_Some (cursor
             (handle_data Sample.world newResponse Sample.own_data
                initial_state).1)) as Hc by (vm_compute; eauto).
  split; [reflexivity|]. split; [exact (H200 Hc)|exact Hc].
Defined.

(** X6, on A asking for her own data. *)
Lemma X6_witness :
  is_Some (cursor
             (handle_data Sample.world newResponse Sample.own_data initial_state).1) /\
  exists p,
    last (calls
            (handle_data Sample.world newResponse Sample.own_data initial_state).2)
    = Some CClose /\
    CGetDeviceData p
      ∈ calls (handle_data Sample.world newResponse Sample.own_data initial_state).2.
Proof.
  assert (is_Some (cursor
             (handle_data Sample.world newResponse Sample.own_data
                initial_state).1)) as Hc by (vm_compute; eauto).
  destruct (X6_calls_of_a_streamed_request Sample.world newResponse
              Sample.own_data initial_state Hc)
    as (p0 & p & HG & Hcalls & _).
  split; [exact Hc|]. exists p. rewrite Hcalls. split.
  - rewrite !app_comm_cons, !app_assoc. apply last_snoc.
  - rewrite !elem_of_app, elem_of_cons, !elem_of_app, elem_of_cons. tauto.
Defined.

(** X7, on A asking for her own data. *)
Lemma X7_witness :
  (forall d bytes,
     json_Marshal_results Sample.world d = Ok bytes -> Sample.is_text bytes) /\
  completion
    (handle_data Sample.world newResponse Sample.own_data initial_state).1
    = Returns /\
  status (response
            (handle_data Sample.world newResponse Sample.own_data initial_state).1)
    = Some StatusOK.
Proof.
  assert (is_Some (cursor
             (handle_data Sample.world newResponse Sample.own_data
                initial_state).1)) as Hc by (vm_compute; eauto).
  assert (completion
            (handle_data Sample.world newResponse Sample.own_data
               initial_state).1 = Returns) as Hret by reflexivity.
  destruct (X7_stream_of_the_target Sample.world Sample.is_text Sample.own_data
              initial_state sample_marshal_is_text Hc Hret)
    as (p0 & p & _ & _ & _ & Hst & _).
  split; [exact sample_marshal_is_text|]. split; [exact Hret|exact Hst].
Defined.

(** X8, on A asking for the data of B, whose cursor breaks. *)
Lemma X8_witness :
  completion
    (handle_data Sample.world newResponse Sample.shared_data initial_state).1
    = Panicked /\
  status (response
            (handle_data Sample.world newResponse Sample.shared_data initial_state).1)
    = Some StatusOK /\
  uuids (handle_data Sample.world newResponse Sample.shared_data initial_state).2
    = 0%nat.
Proof.
  assert (completion
            (handle_data Sample.world newResponse Sample.shared_data
               initial_state).1 = Panicked) as Hp by reflexivity.
  destruct (X8_broken_stream_is_truncated Sample.world Sample.shared_data
              initial_state Hp)
    as (p0 & p & _ & _ & _ & Hst & _ & _ & _ & Huu & _).
  split; [exact Hp|]. split; [exact Hst|exact Huu].
Defined.
